(** * mp3ToTxt: the task controller and the chunked transcription loop

    A shallow embedding of [TaskController], [transcribe_audio_baidu],
    [transcribe_large_audio_baidu] and [transcribe_audio] of
    [mp3_to_text.py] and of the language selection of the two windows, and
    the properties of the pause/stop protocol, of the chunk loop and of the
    language codes proved over it.

    Conventions of the embedding.
    - A Python [str] is the [string] of its UTF-8 bytes.  Equality is the
      same on both, and since UTF-8 is prefix-free on code points,
      [str.startswith] is [String.prefix] on the bytes.
    - An [AudioSegment] is the list of its milliseconds: pydub measures
      ([len]) and slices ([audio[a:b]]) in milliseconds and clips a slice to
      the segment.  A WAV file is identified with the audio it holds, its
      size in bytes is [wav_size].
    - The controlling (GUI) thread, the file system and the recognition
      service are an environment [Env] indexed by the instant: the worker
      thread spends one instant on every acquisition of the controller's
      lock, on every file operation and on every request, and the calls the
      controlling thread makes during that instant take effect with it.
    - What the program prints, logs and reports to the progress callback is
      the list of [event]s of a run.
    - [transcribe_audio_baidu] and [transcribe_large_audio_baidu] call each
      other: the depth of nesting that the recursion limit of the
      interpreter allows is a parameter of the two, and the call that would
      go beyond it raises [RecursionError]. *)

From Stdlib Require Import String Ascii List Bool Arith NArith ZArith Lia.
From Stdlib Require Import DecimalString.
Import ListNotations.

Set Warnings "-abstract-large-number".

(** ** The task controller (lines 22-67) *)

Module Controller.

Record TaskController := {
  _paused : bool;
  _stop_requested : bool
}.

(** [TaskController()] *)
Definition __init__ : TaskController :=
  {| _paused := false; _stop_requested := false |}.

(** A method run under [self._lock]: its result and the state it leaves. *)
Definition method (A : Type) : Type := TaskController -> A * TaskController.

Definition pause : method unit := fun self =>
  (tt, {| _paused := true; _stop_requested := _stop_requested self |}).

Definition resume : method unit := fun self =>
  (tt, {| _paused := false; _stop_requested := _stop_requested self |}).

Definition stop : method unit := fun self =>
  (tt, {| _paused := _paused self; _stop_requested := true |}).

Definition is_paused : method bool := fun self => (_paused self, self).

Definition is_stop_requested : method bool := fun self =>
  (_stop_requested self, self).

Definition reset : method unit := fun self =>
  (tt, {| _paused := false; _stop_requested := false |}).

(** One turn of the [while True] of [wait_if_paused], the part under the
    lock (lines 62-66): [true] when the method returns, [false] when it
    goes on to sleep and poll again. *)
Definition wait_if_paused_poll : method bool := fun self =>
  if negb (_paused self) then (true, self)
  else if _stop_requested self then (true, self)
  else (false, self).

(** The calls the controlling thread makes on the shared controller. *)
Inductive call := Pause | Resume | Stop | Reset.

Definition perform (self : TaskController) (c : call) : TaskController :=
  match c with
  | Pause => snd (pause self)
  | Resume => snd (resume self)
  | Stop => snd (stop self)
  | Reset => snd (reset self)
  end.

Definition perform_all (self : TaskController) (cs : list call) : TaskController :=
  fold_left perform cs self.

(** The condition under which [wait_if_paused] returns. *)
Definition may_proceed (self : TaskController) : bool :=
  negb (_paused self) || _stop_requested self.

Definition is_reset (c : call) : bool :=
  match c with Reset => true | _ => false end.

Definition is_stop (c : call) : bool :=
  match c with Stop => true | _ => false end.

End Controller.
Import Controller.

(** ** Audio, the environment and the worker's monad *)

Section Transcription.

(** What one millisecond of audio holds. *)
Variable sample : Type.

Definition AudioSegment : Type := list sample.

(** [audio[start:stop]] of pydub, for [start <= stop]. *)
Definition slice (audio : AudioSegment) (start stop : nat) : AudioSegment :=
  firstn (stop - start) (skipn start audio).

(** What [client.asr] gives back: the response dictionary, or an
    exception raised by the call or by reading the response. *)
Inductive api_response :=
| Response (err_no : Z) (err_msg : string) (result : list string)
| Failure (e : string).

Record Env := {
  BAIDU_APP_ID : string;
  BAIDU_API_KEY : string;
  BAIDU_SECRET_KEY : string;
  (** size in bytes of the WAV file holding an audio *)
  wav_size : AudioSegment -> N;
  (** the calls of the controlling thread during an instant *)
  ui : nat -> list call;
  (** the exception a file operation raises at an instant, if any *)
  io_error : nat -> option string;
  (** the answer of the recognition service to a request at an instant *)
  asr : nat -> AudioSegment -> option Z -> api_response;
  (** the text of the [RecursionError] that the interpreter raises when
      chunked runs nest deeper than its recursion limit allows *)
  recursion_error : string
}.

Inductive event :=
| Interrupted (level : nat)                     (* lines 241-242, 249 *)
| Processing (level i total : nat)              (* line 252 *)
| Progress (current total : nat)                (* lines 257, 294 *)
| Exported (level i : nat) (chunk : AudioSegment)   (* lines 268-269 *)
| Request (audio_data : AudioSegment) (dev_pid : option Z)  (* line 189 *)
| ChunkOk (level i : nat) (text : string)       (* line 282 *)
| ChunkFailed (level i : nat) (text : string)   (* line 284 *)
| Completed (level : nat)                       (* line 298 *)
| Aborted (level : nat) (e : string).           (* line 302 *)

Record World := {
  controller : TaskController;
  now : nat
}.

Inductive outcome (A : Type) :=
| Returned (a : A) (w : World) (log : list event)
| Raised (e : string) (w : World) (log : list event)
| Pending.   (* still polling when the polls allowed ran out *)
Arguments Returned {A}.
Arguments Raised {A}.
Arguments Pending {A}.

Definition M (A : Type) : Type := World -> outcome A.

Definition ret {A} (a : A) : M A := fun w => Returned a w [].

Definition bind {A B} (m : M A) (k : A -> M B) : M B := fun w =>
  match m w with
  | Returned a w1 log1 =>
      match k a w1 with
      | Returned b w2 log2 => Returned b w2 (log1 ++ log2)
      | Raised e w2 log2 => Raised e w2 (log1 ++ log2)
      | Pending => Pending
      end
  | Raised e w1 log1 => Raised e w1 log1
  | Pending => Pending
  end.

(** [try: m  except Exception as e: handler e] *)
Definition try_except {A} (m : M A) (handler : string -> M A) : M A := fun w =>
  match m w with
  | Raised e w1 log1 =>
      match handler e w1 with
      | Returned a w2 log2 => Returned a w2 (log1 ++ log2)
      | Raised e' w2 log2 => Raised e' w2 (log1 ++ log2)
      | Pending => Pending
      end
  | o => o
  end.

Definition emit (e : event) : M unit := fun w => Returned tt w [e].

Definition pending {A} : M A := fun _ => Pending.

(** [raise] of an exception whose text is [e] *)
Definition raise {A} (e : string) : M A := fun w => Raised e w [].

Notation "x <- m ;; k" := (bind m (fun x => k))
  (at level 61, m at next level, right associativity).
Notation "m ;; k" := (bind m (fun _ => k))
  (at level 61, right associativity).

Variable env : Env.

(** The controller as the worker finds it when it acts now: the calls of
    the controlling thread during this instant have taken effect. *)
Definition peek (w : World) : TaskController :=
  perform_all (controller w) (ui env (now w)).

(** One instant passes. *)
Definition tick (w : World) : World :=
  {| controller := peek w; now := S (now w) |}.

Definition ticks (n : nat) (w : World) : World := Nat.iter n tick w.

(** The worker calls a method of the shared controller. *)
Definition locked {A} (m : method A) : M A := fun w =>
  let (a, self) := m (peek w) in
  Returned a {| controller := self; now := S (now w) |} [].

(** A file operation: [AudioSegment.from_wav], [mkstemp] and [export],
    [open] and [read]. *)
Definition file_op : M unit := fun w =>
  match io_error env (now w) with
  | Some e => Raised e (tick w) []
  | None => Returned tt (tick w) []
  end.

(** [client.asr(audio_data, 'wav', 16000, options)] *)
Definition client_asr (audio_data : AudioSegment) (dev_pid : option Z)
  : M api_response := fun w =>
  Returned (asr env (now w) audio_data dev_pid) (tick w)
           [Request audio_data dev_pid].

(** ** [TaskController.wait_if_paused] (lines 59-67)

    [patience] bounds the polls: the method is [Pending] while it has not
    returned after that many. *)
Fixpoint wait_if_paused (patience : nat) : M unit :=
  match patience with
  | 0 => pending
  | S p =>
      done <- locked wait_if_paused_poll ;;
      if done : bool then ret tt
      else wait_if_paused p          (* time.sleep(0.1) *)
  end.

Variable patience : nat.

(** ** [transcribe_audio_baidu] and [transcribe_large_audio_baidu] *)

Definition newline : string := String "010" EmptyString.

(** ["\n".join(l)] *)
Definition join (l : list string) : string := String.concat newline l.

Definition stopped_msg : string := "处理已被用户停止".
Definition error_prefix : string := "百度语音识别服务错误".
Definition missing_keys_msg : string :=
  "错误: 未配置百度语音识别API密钥，请在脚本中配置APP_ID、API_KEY和SECRET_KEY".

(** [str(n)] of an integer *)
Definition str (n : Z) : string := NilZero.string_of_int (Z.to_int n).

Definition error_msg (err_msg : string) (err_no : Z) : string :=
  (error_prefix ++ ": " ++ err_msg ++ " (错误码: " ++ str err_no ++ ")")%string.

Definition exception_msg (e : string) : string :=
  ("百度语音识别服务异常: " ++ e)%string.

Definition large_error_msg (e : string) : string :=
  ("处理大型音频文件时出错: " ++ e)%string.

Definition chunk_length_ms : nat := 60000.

Definition size_limit : N := 10 * 1024 * 1024.

(** [len(audio) // chunk_length_ms + 1] (line 229) *)
Definition chunks_number (audio : AudioSegment) : nat :=
  length audio / chunk_length_ms + 1.

(** [audio[i*chunk_length_ms:(i+1)*chunk_length_ms]] (line 260) *)
Definition chunk (audio : AudioSegment) (i : nat) : AudioSegment :=
  slice audio (i * chunk_length_ms) ((i + 1) * chunk_length_ms).

(** What the loop exports as chunk number [i]. *)
Definition export_of (audio : AudioSegment) (i : nat) : nat * AudioSegment :=
  (i, chunk audio i).

(** [if progress_callback: progress_callback(current, total)];
    [progress_callback] is [true] when the caller supplied one. *)
Definition report (progress_callback : bool) (current total : nat) : M unit :=
  if progress_callback then emit (Progress current total) else ret tt.

(** Lines 239-250, the two check points before a chunk: [true] when the
    loop has to return the stopped message.  [task_controller] is [true]
    when the caller passed the controller. *)
Definition checkpoint (level : nat) (task_controller : bool) : M bool :=
  if task_controller then
    stop1 <- locked is_stop_requested ;;
    if stop1 : bool then emit (Interrupted level) ;; ret true
    else
      wait_if_paused patience ;;
      stop2 <- locked is_stop_requested ;;
      if stop2 : bool then emit (Interrupted level) ;; ret true
      else ret false
  else ret false.

Section Loop.

(** The function called on each chunk (line 273). *)
Variable transcribe : AudioSegment -> string -> bool -> bool -> M string.

Variable level : nat.
Variable audio : AudioSegment.
Variable language : string.
Variable progress_callback : bool.
Variable task_controller : bool.

(** The [for i in range(chunks_number)] of lines 238-290 over the
    indices still [todo]: [inl r] when the body returns [r] from inside
    the loop, [inr transcription] when the loop runs to its end. *)
Fixpoint chunk_loop (total : nat) (todo : list nat) (transcription : list string)
  : M (string + list string) :=
  match todo with
  | [] => ret (inr transcription)
  | i :: rest =>
      stopped <- checkpoint level task_controller ;;
      if stopped : bool then ret (inl stopped_msg)
      else
        emit (Processing level i total) ;;
        report progress_callback i total ;;
        file_op ;;
        emit (Exported level i (chunk audio i)) ;;
        chunk_result <- transcribe (chunk audio i) language
                                   progress_callback task_controller ;;
        if (chunk_result =? stopped_msg)%string then ret (inl chunk_result)
        else if negb (String.prefix error_prefix chunk_result) then
          emit (ChunkOk level i chunk_result) ;;
          chunk_loop total rest (transcription ++ [chunk_result])
        else
          emit (ChunkFailed level i chunk_result) ;;
          chunk_loop total rest transcription
  end.

(** Lines 221-303. *)
Definition large_body : M string :=
  try_except
    (file_op ;;                                   (* from_wav *)
     let total := chunks_number audio in
     r <- chunk_loop total (seq 0 total) [] ;;
     match r with
     | inl result => ret result
     | inr transcription =>
         report progress_callback total total ;;
         emit (Completed level) ;;
         ret (join transcription)
     end)
    (fun e => emit (Aborted level e) ;; ret (large_error_msg e)).

End Loop.

Definition keys_missing : bool :=
  (BAIDU_APP_ID env =? "")%string || (BAIDU_API_KEY env =? "")%string
  || (BAIDU_SECRET_KEY env =? "")%string.

(** Lines 166-177: [options.get("dev_pid")]. *)
Definition dev_pid_of (language : string) : option Z :=
  if String.prefix "zh" language then Some 1537%Z
  else if String.prefix "en" language then Some 1737%Z
  else if String.prefix "ja" language then Some 1737%Z
  else if String.prefix "ko" language then Some 1737%Z
  else None.

(** Lines 197-208: the value returned for an answer of the service. *)
Definition parse_response (response : api_response) : string :=
  match response with
  | Response err_no err_msg result =>
      if (err_no =? 0)%Z then join result
      else error_msg err_msg err_no
  | Failure e => exception_msg e
  end.

(** Lines 183-208. *)
Definition single_request (audio_data : AudioSegment) (language : string)
  : M string :=
  response <- client_asr audio_data (dev_pid_of language) ;;
  ret (parse_response response).

(** Lines 142-208, with the callee of line 164 as [large]. *)
Definition baidu_body
    (large : AudioSegment -> string -> bool -> bool -> M string)
    (audio_path : AudioSegment) (language : string)
    (progress_callback task_controller : bool) : M string :=
  if keys_missing then ret missing_keys_msg
  else
    file_op ;;                                       (* open, read *)
    let file_size := wav_size env audio_path in
    if (size_limit <? file_size)%N then
      large audio_path language progress_callback task_controller
    else single_request audio_path language.

(** The two functions call each other.  [fuel] is the nesting of chunked
    runs that the recursion limit of the interpreter still allows: the call
    of line 164 that would nest deeper raises [RecursionError], an
    [Exception] like the others.  [level] counts the nesting (0 for the
    outermost chunked run). *)
Fixpoint transcribe_audio_baidu (fuel level : nat) (audio_path : AudioSegment)
    (language : string) (progress_callback task_controller : bool)
    {struct fuel} : M string :=
  baidu_body
    (match fuel with
     | 0 => fun _ _ _ _ => raise (recursion_error env)
     | S fuel' => large_body (transcribe_audio_baidu fuel' (S level)) level
     end)
    audio_path language progress_callback task_controller.

Definition transcribe_large_audio_baidu (fuel level : nat)
    (audio_path : AudioSegment) (language : string)
    (progress_callback task_controller : bool) : M string :=
  large_body (transcribe_audio_baidu fuel (S level)) level
             audio_path language progress_callback task_controller.

(** ** What a run that ends has returned and logged

    [ends m Q E]: from any world, [m] that returns [a] with [log] has
    [Q a log], and [m] that raises with [log] has [E log]. *)
Definition ends {A} (m : M A) (Q : A -> list event -> Prop)
    (E : list event -> Prop) : Prop :=
  forall w, match m w with
            | Returned a _ log => Q a log
            | Raised _ _ log => E log
            | Pending => True
            end.

(** ** Reading the log of a run *)

(** The invocations of the progress callback, in order. *)
Fixpoint progress_calls (log : list event) : list (nat * nat) :=
  match log with
  | [] => []
  | Progress current total :: log' => (current, total) :: progress_calls log'
  | _ :: log' => progress_calls log'
  end.

(** The chunk indices the loop of the run at [level] took up, in order. *)
Fixpoint processed_at (level : nat) (log : list event) : list nat :=
  match log with
  | [] => []
  | Processing l i _ :: log' =>
      if l =? level then i :: processed_at level log'
      else processed_at level log'
  | _ :: log' => processed_at level log'
  end.

(** The chunks the loop of the run at [level] exported, in order. *)
Fixpoint exported_at (level : nat) (log : list event)
  : list (nat * AudioSegment) :=
  match log with
  | [] => []
  | Exported l i c :: log' =>
      if l =? level then (i, c) :: exported_at level log'
      else exported_at level log'
  | _ :: log' => exported_at level log'
  end.

(** The results the loop of the run at [level] appended to
    [transcription], in order. *)
Fixpoint appended_at (level : nat) (log : list event) : list string :=
  match log with
  | [] => []
  | ChunkOk l _ text :: log' =>
      if l =? level then text :: appended_at level log'
      else appended_at level log'
  | _ :: log' => appended_at level log'
  end.

(** The chunk indices whose result the loop of the run at [level] kept
    (line 282) or dropped (line 284), in order. *)
Fixpoint judged_at (level : nat) (log : list event) : list nat :=
  match log with
  | [] => []
  | ChunkOk l i _ :: log' | ChunkFailed l i _ :: log' =>
      if l =? level then i :: judged_at level log'
      else judged_at level log'
  | _ :: log' => judged_at level log'
  end.

(** The audio sent to the recognition service, in order. *)
Fixpoint requests (log : list event) : list AudioSegment :=
  match log with
  | [] => []
  | Request audio_data _ :: log' => audio_data :: requests log'
  | _ :: log' => requests log'
  end.

Definition is_interrupted (e : event) : bool :=
  match e with Interrupted _ => true | _ => false end.

(** No check point of the run found [stop_requested] set. *)
Definition uninterrupted (log : list event) : Prop :=
  forallb (fun e => negb (is_interrupted e)) log = true.

Definition is_request (e : event) : bool :=
  match e with Request _ _ => true | _ => false end.

(** [e] can come from a chunked run at [level] or nested deeper. *)
Definition from_level (level : nat) (e : event) : Prop :=
  match e with
  | Interrupted l | Processing l _ _ | Exported l _ _
  | ChunkOk l _ _ | ChunkFailed l _ _ | Completed l | Aborted l _ => level <= l
  | Progress _ _ | Request _ _ => True
  end.

(** ** The shape of the log of a run

    What the loop and the chunked run can have logged when they end, read
    off their code.  [SubQ a r sub] is what is known of a call of line 273
    on the chunk [a] that returned [r] and logged [sub], [SubE a sub] of
    one that raised. *)
Section Runs.

Variable SubQ : AudioSegment -> string -> list event -> Prop.
Variable SubE : AudioSegment -> list event -> Prop.
Variable level : nat.
Variable audio : AudioSegment.
Variable progress_callback : bool.
Variable total : nat.

(** Lines 252-257. *)
Definition opening (i : nat) : list event :=
  Processing level i total
  :: (if progress_callback then [Progress i total] else []).

(** [loop_run todo transcription res log]: the loop over [todo], entered
    with [transcription], ended with [res] ([None] when it raised,
    [Some (inl r)] when it returned [r] from inside, [Some (inr t)] when
    it ran to its end with [t]) and logged [log]. *)
Inductive loop_run
  : list nat -> list string -> option (string + list string)
    -> list event -> Prop :=
| run_end ts :
    loop_run [] ts (Some (inr ts)) []
| run_interrupted i rest ts :
    loop_run (i :: rest) ts (Some (inl stopped_msg)) [Interrupted level]
| run_export_raised i rest ts :
    loop_run (i :: rest) ts None (opening i)
| run_chunk_raised i rest ts sub :
    SubE (chunk audio i) sub ->
    loop_run (i :: rest) ts None
             (opening i ++ Exported level i (chunk audio i) :: sub)
| run_forwarded i rest ts sub :
    SubQ (chunk audio i) stopped_msg sub ->
    loop_run (i :: rest) ts (Some (inl stopped_msg))
             (opening i ++ Exported level i (chunk audio i) :: sub)
| run_appended i rest ts sub r res log :
    SubQ (chunk audio i) r sub ->
    r <> stopped_msg ->
    String.prefix error_prefix r = false ->
    loop_run rest (ts ++ [r]) res log ->
    loop_run (i :: rest) ts res
             (opening i ++ Exported level i (chunk audio i) :: sub
              ++ ChunkOk level i r :: log)
| run_dropped i rest ts sub r res log :
    SubQ (chunk audio i) r sub ->
    r <> stopped_msg ->
    String.prefix error_prefix r = true ->
    loop_run rest ts res log ->
    loop_run (i :: rest) ts res
             (opening i ++ Exported level i (chunk audio i) :: sub
              ++ ChunkFailed level i r :: log).

End Runs.

(** [large_run r log]: the chunked run returned [r] and logged [log]. *)
Inductive large_run
    (SubQ : AudioSegment -> string -> list event -> Prop)
    (SubE : AudioSegment -> list event -> Prop)
    (level : nat) (audio : AudioSegment) (progress_callback : bool)
  : string -> list event -> Prop :=
| large_unreadable e :
    large_run SubQ SubE level audio progress_callback
              (large_error_msg e) [Aborted level e]
| large_aborted e log :
    loop_run SubQ SubE level audio progress_callback (chunks_number audio)
             (seq 0 (chunks_number audio)) [] None log ->
    large_run SubQ SubE level audio progress_callback
              (large_error_msg e) (log ++ [Aborted level e])
| large_left r log :
    loop_run SubQ SubE level audio progress_callback (chunks_number audio)
             (seq 0 (chunks_number audio)) [] (Some (inl r)) log ->
    large_run SubQ SubE level audio progress_callback r log
| large_completed ts log :
    loop_run SubQ SubE level audio progress_callback (chunks_number audio)
             (seq 0 (chunks_number audio)) [] (Some (inr ts)) log ->
    large_run SubQ SubE level audio progress_callback (join ts)
              (log ++ (if progress_callback
                       then [Progress (chunks_number audio) (chunks_number audio)]
                       else [])
                   ++ [Completed level]).

(** The result [r] and the log of a run agree on a stop: either no check
    point found the flag set, or the last thing logged is the one that
    did and [r] is the stopped message. *)
Definition stop_ok (r : string) (log : list event) : Prop :=
  uninterrupted log
  \/ (r = stopped_msg
      /\ exists log0 l, log = log0 ++ [Interrupted l] /\ uninterrupted log0).

(** What is known of a call of [transcribe_audio_baidu] at [level] on [a]
    that returned [r] and logged [log]. *)
Definition baidu_run (level : nat) (language : string) (a : AudioSegment)
    (r : string) (log : list event) : Prop :=
  Forall (from_level level) log
  /\ stop_ok r log
  /\ ((wav_size env a <= size_limit)%N ->
      if keys_missing then r = missing_keys_msg /\ log = []
      else log = [Request a (dev_pid_of language)]
           /\ exists t, r = parse_response (asr env t a (dev_pid_of language))).

(** It raises only when the file cannot be read or the call of line 164
    would nest too deep, before it logs anything. *)
Definition baidu_raise (a : AudioSegment) (log : list event) : Prop :=
  log = [].

(** [e] is an event that a run called with these [progress_callback] and
    [task_controller] can log. *)
Definition permitted (progress_callback task_controller : bool) (e : event)
  : Prop :=
  match e with
  | Interrupted _ => task_controller = true
  | Progress _ _ => progress_callback = true
  | _ => True
  end.

(** A run that returned [r] and logged [log] was not stopped unless one
    of its check points found the flag set. *)
Definition unstopped (r : string) (log : list event) : Prop :=
  uninterrupted log -> r <> stopped_msg.

(** [e] is not a request with a file over the limit. *)
Definition sendable (e : event) : Prop :=
  match e with
  | Request audio_data _ => (wav_size env audio_data <= size_limit)%N
  | _ => True
  end.

(** [m] leaves the world as the instants that passed made it: it has made
    no call that changes the controller. *)
Definition advances {A} (m : M A) : Prop :=
  forall w, match m w with
            | Returned _ w' _ | Raised _ w' _ => exists n, w' = ticks n w
            | Pending => True
            end.

(** Every chunk of [audio] is within the limit of a single request. *)
Definition chunks_fit (audio : AudioSegment) : Prop :=
  forall i, i < chunks_number audio ->
    (wav_size env (chunk audio i) <= size_limit)%N.

(** From [w] on: no check finds the stop flag set, every pause ends
    within [patience] polls, and no file operation fails. *)
Record undisturbed (w : World) : Prop := {
  never_stopped : forall k, _stop_requested (peek (ticks k w)) = false;
  pauses_end : forall k, exists d,
      d < patience /\ _paused (peek (ticks (k + d) w)) = false;
  no_io_error : forall k, io_error env (now w + k) = None
}.

(** The recognition service never answers with the text of the stopped
    message. *)
Definition never_says_stopped : Prop :=
  forall t audio_data dev_pid,
    parse_response (asr env t audio_data dev_pid) <> stopped_msg.

(** ** [transcribe_audio] (lines 305-323)

    The separators of the program ("-", "(" and ")") are ASCII characters:
    a byte of theirs is never part of the UTF-8 encoding of another
    character, so that searching and splitting the bytes is searching and
    splitting the text. *)

(** [sep in s], for a separator of one character *)
Fixpoint contains (sep : ascii) (s : string) : bool :=
  match s with
  | EmptyString => false
  | String c s' => Ascii.eqb c sep || contains sep s'
  end.

(** [s.split(sep)], for a separator of one character: the parts between
    the occurrences of [sep], one more than there are occurrences. *)
Fixpoint split (sep : ascii) (s : string) : list string :=
  match s with
  | EmptyString => [EmptyString]
  | String c s' =>
      if Ascii.eqb c sep then EmptyString :: split sep s'
      else match split sep s' with
           | part :: parts => String c part :: parts
           | [] => [String c EmptyString]
           end
  end.

(** [language.split("-")[0] if "-" in language else language] (line 318) *)
Definition baidu_language (language : string) : string :=
  if contains "-" language then hd EmptyString (split "-" language)
  else language.

(** [transcribe_audio_google] is a parameter; the call of line 320 starts
    at nesting level 0. *)
Definition transcribe_audio
    (transcribe_audio_google : AudioSegment -> string -> M string)
    (fuel : nat) (audio_path : AudioSegment) (language : string)
    (use_baidu progress_callback task_controller : bool) : M string :=
  if use_baidu then
    transcribe_audio_baidu fuel 0 audio_path (baidu_language language)
                           progress_callback task_controller
  else transcribe_audio_google audio_path language.

End Transcription.

Arguments BAIDU_APP_ID {sample}.
Arguments BAIDU_API_KEY {sample}.
Arguments BAIDU_SECRET_KEY {sample}.
Arguments wav_size {sample}.
Arguments ui {sample}.
Arguments io_error {sample}.
Arguments asr {sample}.
Arguments recursion_error {sample}.
Arguments slice {sample}.
Arguments Interrupted {sample}.
Arguments Processing {sample}.
Arguments Progress {sample}.
Arguments Exported {sample}.
Arguments Request {sample}.
Arguments ChunkOk {sample}.
Arguments ChunkFailed {sample}.
Arguments Completed {sample}.
Arguments Aborted {sample}.
Arguments Returned {sample A}.
Arguments Raised {sample A}.
Arguments Pending {sample A}.
Arguments ret {sample A}.
Arguments bind {sample A B}.
Arguments try_except {sample A}.
Arguments emit {sample}.
Arguments pending {sample A}.
Arguments raise {sample A}.
Arguments peek {sample}.
Arguments tick {sample}.
Arguments ticks {sample}.
Arguments locked {sample} env {A}.
Arguments file_op {sample}.
Arguments client_asr {sample}.
Arguments wait_if_paused {sample}.
Arguments chunks_number {sample} audio : simpl never.
Arguments chunk {sample} audio i : simpl never.
Arguments export_of {sample}.
Arguments report {sample}.
Arguments checkpoint {sample}.
Arguments chunk_loop {sample}.
Arguments large_body {sample}.
Arguments keys_missing {sample}.
Arguments single_request {sample}.
Arguments baidu_body {sample}.
Arguments transcribe_audio_baidu {sample}.
Arguments transcribe_large_audio_baidu {sample}.
Arguments ends {sample A}.
Arguments progress_calls {sample}.
Arguments processed_at {sample}.
Arguments exported_at {sample}.
Arguments appended_at {sample}.
Arguments judged_at {sample}.
Arguments requests {sample}.
Arguments is_interrupted {sample}.
Arguments uninterrupted {sample}.
Arguments is_request {sample}.
Arguments from_level {sample}.
Arguments opening {sample} level progress_callback total i : simpl never.
Arguments loop_run {sample}.
Arguments large_run {sample}.
Arguments stop_ok {sample}.
Arguments baidu_run {sample}.
Arguments baidu_raise {sample}.
Arguments permitted {sample}.
Arguments sendable {sample}.
Arguments unstopped {sample}.
Arguments advances {sample} env {A}.
Arguments chunks_fit {sample}.
Arguments undisturbed {sample}.
Arguments never_says_stopped {sample}.
Arguments transcribe_audio {sample}.

(** ** The language of a conversion in the two windows
    ([mp3_to_text_gui.py] lines 55-66 and 122-123, [mp3_to_text_qt.py]
    lines 285-295 and 725-726) *)

Module Gui.

Local Open Scope string_scope.

(** The names and codes offered by the Tk window (lines 55-63). *)
Definition languages : list (string * string) :=
  [("中文", "zh-CN"); ("英语", "en-US"); ("日语", "ja"); ("韩语", "ko");
   ("法语", "fr"); ("德语", "de"); ("俄语", "ru")].

(** [f"{name} ({code})"] (line 66) *)
Definition combo_value (name code : string) : string :=
  name ++ " (" ++ code ++ ")".

Definition combo_values : list string :=
  map (fun entry => combo_value (fst entry) (snd entry)) languages.

(** The items of the Qt window (lines 285-293). *)
Definition qt_languages : list string :=
  ["中文 (zh-CN)"; "英语 (en-US)"; "日语 (ja)"; "韩语 (ko)";
   "法语 (fr)"; "德语 (de)"; "俄语 (ru)"].

(** [language_selection.split('(')[1].split(')')[0]]; [None] when the
    index 1 raises [IndexError]. *)
Definition language_code (language_selection : string) : option string :=
  match nth_error (split "(" language_selection) 1 with
  | Some rest => nth_error (split ")" rest) 0
  | None => None
  end.

End Gui.


Global Opaque chunk_length_ms.

(** ** Runs used as examples

    One millisecond of audio is [tt]; the worlds start at instant 0 with a
    fresh controller. *)

Module Examples.

Definition audio_of (ms : nat) : AudioSegment unit := repeat tt ms.

Definition start : World :=
  {| controller := __init__; now := 0 |}.

(** 16 kHz, mono, 16 bit: 32 bytes a millisecond after the 44 of the
    header. *)
Definition mono16k (a : AudioSegment unit) : N := 44 + 32 * N.of_nat (length a).

(** 44.1 kHz, stereo, 16 bit: 176 bytes a millisecond and more. *)
Definition stereo44k (a : AudioSegment unit) : N := 44 + 176 * N.of_nat (length a).

Definition depth_exceeded : string := "maximum recursion depth exceeded".

Definition says (text : string) : nat -> AudioSegment unit -> option Z -> api_response :=
  fun _ _ _ => Response 0 "success." [text].

(** A quiet controlling thread, a working disk, a service that hears
    "hello" in everything. *)
Definition calm : Env unit :=
  {| BAIDU_APP_ID := "1234"; BAIDU_API_KEY := "key"; BAIDU_SECRET_KEY := "secret";
     wav_size := mono16k;
     ui := fun _ => [];
     io_error := fun _ => None;
     asr := says "hello";
     recursion_error := depth_exceeded |}.

(** [stop()] is called during instant [t]. *)
Definition stop_at (t : nat) : Env unit :=
  {| BAIDU_APP_ID := "1234"; BAIDU_API_KEY := "key"; BAIDU_SECRET_KEY := "secret";
     wav_size := mono16k;
     ui := fun n => if n =? t then [Stop] else [];
     io_error := fun _ => None;
     asr := says "hello";
     recursion_error := depth_exceeded |}.

(** [pause()] during instant [t], [resume()] during instant [t'] . *)
Definition pause_resume (t t' : nat) : Env unit :=
  {| BAIDU_APP_ID := "1234"; BAIDU_API_KEY := "key"; BAIDU_SECRET_KEY := "secret";
     wav_size := mono16k;
     ui := fun n => if n =? t then [Pause] else if n =? t' then [Resume] else [];
     io_error := fun _ => None;
     asr := says "hello";
     recursion_error := depth_exceeded |}.

(** Every request times out. *)
Definition timeouts : Env unit :=
  {| BAIDU_APP_ID := "1234"; BAIDU_API_KEY := "key"; BAIDU_SECRET_KEY := "secret";
     wav_size := mono16k;
     ui := fun _ => [];
     io_error := fun _ => None;
     asr := fun _ _ _ => Failure "timed out";
     recursion_error := depth_exceeded |}.

(** The module as it is shipped: the three keys are empty. *)
Definition no_keys (size : AudioSegment unit -> N) : Env unit :=
  {| BAIDU_APP_ID := ""; BAIDU_API_KEY := ""; BAIDU_SECRET_KEY := "";
     wav_size := size;
     ui := fun _ => [];
     io_error := fun _ => None;
     asr := says "hello";
     recursion_error := depth_exceeded |}.

(** CD-quality audio, and the file operation of instant [t] fails. *)
Definition stereo_failing_at (t : nat) : Env unit :=
  {| BAIDU_APP_ID := "1234"; BAIDU_API_KEY := "key"; BAIDU_SECRET_KEY := "secret";
     wav_size := stereo44k;
     ui := fun _ => [];
     io_error := fun n => if n =? t then Some "No space left on device"%string else None;
     asr := says "hello";
     recursion_error := depth_exceeded |}.

(** CD-quality audio, nothing disturbing the run. *)
Definition cd_quality : Env unit :=
  {| BAIDU_APP_ID := "1234"; BAIDU_API_KEY := "key"; BAIDU_SECRET_KEY := "secret";
     wav_size := stereo44k;
     ui := fun _ => [];
     io_error := fun _ => None;
     asr := says "hello";
     recursion_error := depth_exceeded |}.

(** Telephone-quality audio, and the file operation of instant [t] fails. *)
Definition mono_failing_at (t : nat) : Env unit :=
  {| BAIDU_APP_ID := "1234"; BAIDU_API_KEY := "key"; BAIDU_SECRET_KEY := "secret";
     wav_size := mono16k;
     ui := fun _ => [];
     io_error := fun n => if n =? t then Some "No space left on device"%string else None;
     asr := says "hello";
     recursion_error := depth_exceeded |}.

(** The speaker says the words of the stopped message. *)
Definition hears_the_stopped_message : Env unit :=
  {| BAIDU_APP_ID := "1234"; BAIDU_API_KEY := "key"; BAIDU_SECRET_KEY := "secret";
     wav_size := mono16k;
     ui := fun _ => [];
     io_error := fun _ => None;
     asr := says stopped_msg;
     recursion_error := depth_exceeded |}.

(** What a calm run on one second of audio logs. *)
Definition one_chunk_log : list (event unit) :=
  [Processing 0 0 1; Progress 0 1; Exported 0 0 (audio_of 1000);
   Request (audio_of 1000) (Some 1537%Z); ChunkOk 0 0 "hello"%string;
   Progress 1 1; Completed 0].

End Examples.

(** * Properties *)

(** ** The controller's methods *)

Section ControllerFacts.

Variable self : TaskController.

Lemma poll_spec : wait_if_paused_poll self = (may_proceed self, self).
Proof.
  unfold wait_if_paused_poll, may_proceed.
  destruct (_paused self), (_stop_requested self); reflexivity.
Qed.

Lemma perform_keeps_stop (c : call) :
  is_reset c = false -> _stop_requested self = true ->
  _stop_requested (perform self c) = true.
Proof. destruct c; simpl; intros; congruence. Qed.

Lemma eta_controller :
  {| _paused := _paused self; _stop_requested := _stop_requested self |} = self.
Proof. destruct self; reflexivity. Qed.

End ControllerFacts.

Lemma perform_all_keeps_stop (cs : list call) : forall self,
  existsb is_reset cs = false -> _stop_requested self = true ->
  _stop_requested (perform_all self cs) = true.
Proof.
  unfold perform_all.
  induction cs as [|c cs IH]; simpl; intros self Hcs Hs; [exact Hs|].
  apply orb_false_iff in Hcs as [Hc Hcs].
  apply IH; [exact Hcs|]. now apply perform_keeps_stop.
Qed.

Lemma perform_all_reset_last (cs : list call) (self : TaskController) :
  perform_all self (cs ++ [Reset]) = __init__.
Proof. unfold perform_all. rewrite fold_left_app. reflexivity. Qed.

(** ** Instants, and the methods as the worker calls them *)

Section Worker.

Variable sample : Type.
Variable env : Env sample.

Implicit Types (w : World) (p k : nat).

Lemma ticks_succ k w : ticks env (S k) w = tick env (ticks env k w).
Proof. reflexivity. Qed.

Lemma ticks_tick k w : ticks env k (tick env w) = ticks env (S k) w.
Proof.
  induction k as [|k IH]; [reflexivity|].
  rewrite ticks_succ, IH. reflexivity.
Qed.

Lemma ticks_add j k w : ticks env j (ticks env k w) = ticks env (j + k) w.
Proof. unfold ticks. symmetry. apply Nat.iter_add. Qed.

Lemma now_ticks k w : now (ticks env k w) = now w + k.
Proof.
  induction k as [|k IH]; [simpl; lia|].
  rewrite ticks_succ. unfold tick. simpl. rewrite IH. lia.
Qed.

Lemma peek_quiet w : ui env (now w) = [] -> peek env w = controller w.
Proof. unfold peek. intros ->. reflexivity. Qed.

Lemma tick_quiet w :
  ui env (now w) = [] ->
  tick env w = {| controller := controller w; now := S (now w) |}.
Proof. unfold tick. intros H. rewrite (peek_quiet w H). reflexivity. Qed.

(** A method that only reads leaves the world one instant later. *)
Lemma locked_poll w :
  locked env wait_if_paused_poll w
  = Returned (may_proceed (peek env w)) (tick env w) [].
Proof. unfold locked. rewrite poll_spec. reflexivity. Qed.

Lemma locked_is_stop_requested w :
  locked env is_stop_requested w
  = Returned (_stop_requested (peek env w)) (tick env w) [].
Proof. reflexivity. Qed.

Lemma wait_ready p w :
  may_proceed (peek env w) = true ->
  wait_if_paused env (S p) w = Returned tt (tick env w) [].
Proof.
  intros H. simpl. unfold bind. rewrite locked_poll, H. reflexivity.
Qed.

Lemma wait_blocked p w :
  may_proceed (peek env w) = false ->
  wait_if_paused env (S p) w = wait_if_paused env p (tick env w).
Proof.
  intros H. simpl. unfold bind. rewrite locked_poll, H.
  destruct (wait_if_paused env p (tick env w)); reflexivity.
Qed.

(** With [p] polls, the method returns at the first instant at which the
    controller lets it proceed, if there is one among the next [p]. *)
Lemma wait_returns_iff p : forall w w' log,
  wait_if_paused env p w = Returned tt w' log <->
  exists k, k < p
    /\ may_proceed (peek env (ticks env k w)) = true
    /\ (forall j, j < k -> may_proceed (peek env (ticks env j w)) = false)
    /\ w' = ticks env (S k) w /\ log = [].
Proof.
  induction p as [|p IH]; intros w w' log.
  - split; [discriminate|]. intros (k & Hk & _). lia.
  - destruct (may_proceed (peek env w)) eqn:Hw.
    + rewrite (wait_ready p w Hw). split.
      * intros [= <- <-]. exists 0. repeat split; try lia. exact Hw.
      * intros (k & _ & _ & Hbefore & -> & ->).
        destruct k as [|k]; [reflexivity|].
        specialize (Hbefore 0 (Nat.lt_0_succ k)). simpl in Hbefore. congruence.
    + rewrite (wait_blocked p w Hw), IH. split.
      * intros (k & Hk & Hready & Hbefore & -> & ->).
        exists (S k). repeat split; try lia.
        -- now rewrite <- ticks_tick.
        -- intros [|j] Hj; [exact Hw|]. rewrite <- ticks_tick. apply Hbefore. lia.
        -- now rewrite ticks_tick.
      * intros (k & Hk & Hready & Hbefore & -> & ->).
        destruct k as [|k]; [simpl in Hready; congruence|].
        exists k. repeat split; try lia.
        -- now rewrite ticks_tick.
        -- intros j Hj. rewrite ticks_tick. apply Hbefore. lia.
        -- now rewrite ticks_tick.
Qed.

Lemma wait_never_raises p : forall w e w' log,
  wait_if_paused env p w <> Raised e w' log.
Proof.
  induction p as [|p IH]; intros w e w' log; [discriminate|].
  destruct (may_proceed (peek env w)) eqn:Hw.
  - rewrite (wait_ready p w Hw). discriminate.
  - rewrite (wait_blocked p w Hw). apply IH.
Qed.

Lemma wait_pending p : forall w,
  (forall j, j < p -> may_proceed (peek env (ticks env j w)) = false) ->
  wait_if_paused env p w = Pending.
Proof.
  induction p as [|p IH]; intros w H; [reflexivity|].
  rewrite wait_blocked by (apply (H 0); lia).
  apply IH. intros j Hj. rewrite ticks_tick. apply H. lia.
Qed.

(** What a return of [wait_if_paused] leaves: some instants have passed,
    nothing was logged, and the controller lets the worker proceed. *)
Lemma wait_returned p w w' log :
  wait_if_paused env p w = Returned tt w' log ->
  exists k, w' = ticks env (S k) w /\ log = []
            /\ may_proceed (controller w') = true.
Proof.
  intros H. apply wait_returns_iff in H as (k & _ & Hready & _ & -> & ->).
  exists k. repeat split. exact Hready.
Qed.

(** The two check points before a chunk, case by case. *)
Lemma checkpoint_cases patience level w :
  checkpoint env patience level true w =
  if _stop_requested (peek env w)
  then Returned true (tick env w) [Interrupted level]
  else match wait_if_paused env patience (tick env w) with
       | Returned _ w1 _ =>
           if _stop_requested (peek env w1)
           then Returned true (tick env w1) [Interrupted level]
           else Returned false (tick env w1) []
       | Raised e w1 log => Raised e w1 log
       | Pending => Pending
       end.
Proof.
  unfold checkpoint, bind. rewrite locked_is_stop_requested.
  destruct (_stop_requested (peek env w)); [reflexivity|].
  destruct (wait_if_paused env patience (tick env w))
    as [[] w1 log|e w1 log|] eqn:Hwait; try reflexivity.
  apply wait_returned in Hwait as (k & _ & -> & _).
  rewrite locked_is_stop_requested.
  destruct (_stop_requested (peek env w1)); reflexivity.
Qed.

Lemma checkpoint_without_controller patience level w :
  checkpoint env patience level false w = Returned false w [].
Proof. reflexivity. Qed.

End Worker.

Arguments wait_if_paused {sample} env patience _ : simpl never.

(** ** The controller as the specification describes it *)

Section ControllerClaims.

Variable sample : Type.
Variable env : Env sample.

Lemma controller_ticks_quiet k w :
  (forall t, ui env t = []) -> controller (ticks env k w) = controller w.
Proof.
  intros Hq. induction k as [|k IH]; [reflexivity|].
  rewrite ticks_succ. unfold tick. simpl.
  rewrite peek_quiet by apply Hq. exact IH.
Qed.

(** C3: [wait_if_paused] returns exactly when [paused] is false or
    [stop_requested] is true.  Its turn under the lock answers that
    disjunction and leaves the controller as it is; when the disjunction
    holds the method returns at once, the world changed only by the instant
    that passed; while [paused] is true and [stop_requested] false it polls
    again; with [p] polls it has returned exactly when the disjunction held
    at one of them, at the first such, and it is still polling otherwise;
    it never raises. *)
Theorem wait_if_paused_returns_exactly_when :
  (forall self,
      wait_if_paused_poll self
      = (negb (_paused self) || _stop_requested self, self))
  /\ (forall p w,
      negb (_paused (peek env w)) || _stop_requested (peek env w) = true ->
      wait_if_paused env (S p) w = Returned tt (tick env w) [])
  /\ (forall p w,
      ui env (now w) = [] ->
      negb (_paused (controller w)) || _stop_requested (controller w) = true ->
      wait_if_paused env (S p) w
      = Returned tt {| controller := controller w; now := S (now w) |} [])
  /\ (forall p w,
      _paused (peek env w) = true -> _stop_requested (peek env w) = false ->
      wait_if_paused env (S p) w = wait_if_paused env p (tick env w))
  /\ (forall p w w' log,
      wait_if_paused env p w = Returned tt w' log <->
      exists k, k < p
        /\ may_proceed (peek env (ticks env k w)) = true
        /\ (forall j, j < k -> may_proceed (peek env (ticks env j w)) = false)
        /\ w' = ticks env (S k) w /\ log = [])
  /\ (forall p w,
      (forall j, j < p -> _paused (peek env (ticks env j w)) = true
                          /\ _stop_requested (peek env (ticks env j w)) = false) ->
      wait_if_paused env p w = Pending)
  /\ (forall p w e w' log, wait_if_paused env p w <> Raised e w' log).
Proof.
  split; [exact poll_spec|].
  split; [intros p w H; now apply wait_ready|].
  split.
  { intros p w Hq H. rewrite <- (tick_quiet _ env w Hq).
    apply wait_ready. now rewrite peek_quiet. }
  split.
  { intros p w Hp Hs. apply wait_blocked. unfold may_proceed.
    now rewrite Hp, Hs. }
  split; [intros p w w' log; apply wait_returns_iff|].
  split; [|intros p; apply wait_never_raises].
  intros p w H. apply wait_pending. intros j Hj.
  destruct (H j Hj) as [Hp Hs]. unfold may_proceed. now rewrite Hp, Hs.
Qed.

End ControllerClaims.

(** C6: once [stop_requested] is true, [pause], [resume], [stop],
    [is_paused], [is_stop_requested] and [wait_if_paused] leave it true, in
    any number and order; [reset] clears it, and a controller found with the
    flag clear after it was set has been reset.  A [wait_if_paused] called
    in that state returns at once with the flag still set, unless the
    controlling thread resets the controller meanwhile. *)
Theorem stop_is_terminal_until_reset (self : TaskController)
    (Hstop : _stop_requested self = true) :
  _stop_requested (snd (pause self)) = true
  /\ _stop_requested (snd (resume self)) = true
  /\ _stop_requested (snd (stop self)) = true
  /\ _stop_requested (snd (is_paused self)) = true
  /\ _stop_requested (snd (is_stop_requested self)) = true
  /\ _stop_requested (snd (wait_if_paused_poll self)) = true
  /\ (forall cs, existsb is_reset cs = false ->
                 _stop_requested (perform_all self cs) = true)
  /\ (forall cs, _stop_requested (perform_all self cs) = false -> In Reset cs)
  /\ _stop_requested (snd (reset self)) = false
  /\ (forall sample (env : Env sample) p w,
        controller w = self -> existsb is_reset (ui env (now w)) = false ->
        wait_if_paused env (S p) w = Returned tt (tick env w) []
        /\ _stop_requested (controller (tick env w)) = true).
Proof.
  repeat split; try exact Hstop; try reflexivity.
  - rewrite poll_spec. exact Hstop.
  - intros cs Hcs. now apply perform_all_keeps_stop.
  - intros cs Hcs. destruct (existsb is_reset cs) eqn:Hr.
    + apply existsb_exists in Hr as (c & Hin & Hc). now destruct c.
    + rewrite (perform_all_keeps_stop cs self Hr Hstop) in Hcs. discriminate.
  - apply wait_ready. unfold may_proceed, peek. subst self.
    rewrite perform_all_keeps_stop by assumption. apply orb_true_r.
  - simpl. unfold peek. subst self. now apply perform_all_keeps_stop.
Qed.

(** C8: [reset] sets both flags to false whatever the state was, so after
    [stop] it gives back the state of a fresh controller; in that state the
    stop check answers false and [wait_if_paused] returns at its first turn,
    and the check points before a chunk let the worker through in three
    instants when the controlling thread makes no call meanwhile. *)
Theorem reset_restores_initial_state (self : TaskController) :
  snd (reset self) = __init__
  /\ snd (reset (snd (stop self))) = __init__
  /\ _paused (snd (reset self)) = false
  /\ _stop_requested (snd (reset self)) = false
  /\ is_stop_requested (snd (reset self)) = (false, __init__)
  /\ wait_if_paused_poll (snd (reset self)) = (true, __init__)
  /\ (forall cs, perform_all self (cs ++ [Reset]) = __init__)
  /\ (forall sample (env : Env sample) patience level w,
        controller w = snd (reset self) ->
        ui env (now w) = [] -> ui env (S (now w)) = [] ->
        ui env (S (S (now w))) = [] ->
        checkpoint env (S patience) level true w
        = Returned false {| controller := __init__; now := 3 + now w |} []).
Proof.
  repeat split.
  - intros cs. apply perform_all_reset_last.
  - intros sample env patience level [c n] Hc H0 H1 H2.
    simpl in Hc, H0, H1, H2. subst c.
    rewrite checkpoint_cases.
    rewrite peek_quiet, tick_quiet by exact H0. simpl.
    rewrite wait_ready by (rewrite peek_quiet by exact H1; reflexivity).
    rewrite tick_quiet by exact H1. simpl.
    rewrite peek_quiet, tick_quiet by exact H2. reflexivity.
Qed.

(** C9: [pause] and [resume] set [paused] and leave [stop_requested] as it
    was; [stop] sets [stop_requested] and leaves [paused] as it was;
    [is_paused], [is_stop_requested] and a turn of [wait_if_paused] leave
    the controller as it was.  A whole [wait_if_paused] logs nothing and
    leaves the world as the instants that passed made it: the controller it
    leaves is the one it found when the controlling thread made no call. *)
Theorem controller_frame (self : TaskController) :
  snd (pause self)
  = {| _paused := true; _stop_requested := _stop_requested self |}
  /\ snd (resume self)
     = {| _paused := false; _stop_requested := _stop_requested self |}
  /\ snd (stop self) = {| _paused := _paused self; _stop_requested := true |}
  /\ is_paused self = (_paused self, self)
  /\ is_stop_requested self = (_stop_requested self, self)
  /\ snd (wait_if_paused_poll self) = self
  /\ (forall sample (env : Env sample) p w,
        match wait_if_paused env p w with
        | Returned _ w' log =>
            (exists k, w' = ticks env k w) /\ log = []
            /\ ((forall t, ui env t = []) -> controller w' = controller w)
        | Raised _ _ _ => False
        | Pending => True
        end).
Proof.
  repeat split.
  - now rewrite poll_spec.
  - intros sample env p w.
    destruct (wait_if_paused env p w) as [[] w' log|e w' log|] eqn:H.
    + apply wait_returned in H as (k & -> & -> & _).
      repeat split; [now exists (S k)|]. apply controller_ticks_quiet.
    + now apply wait_never_raises in H.
    + exact I.
Qed.

(** ** Reasoning on what a run returns and logs *)

Section Ends.

Variable sample : Type.
Variable env : Env sample.

Local Abbreviation event := (event sample).
Local Abbreviation M := (M sample).

Lemma ends_bind {A B} (m : M A) (k : A -> M B)
    (Q1 : A -> list event -> Prop) (E1 : list event -> Prop) Q E :
  ends m Q1 E1 ->
  (forall log1, E1 log1 -> E log1) ->
  (forall a log1, Q1 a log1 ->
     ends (k a) (fun b log2 => Q b (log1 ++ log2)) (fun log2 => E (log1 ++ log2))) ->
  ends (bind m k) Q E.
Proof.
  intros Hm HE Hk w. unfold bind. specialize (Hm w).
  destruct (m w) as [a w1 log1|e w1 log1|]; [|now apply HE|exact I].
  specialize (Hk a log1 Hm w1).
  destruct (k a w1); assumption.
Qed.

Lemma ends_mono {A} (m : M A) (Q Q' : A -> list event -> Prop) (E E' : list event -> Prop) :
  ends m Q E ->
  (forall a log, Q a log -> Q' a log) -> (forall log, E log -> E' log) ->
  ends m Q' E'.
Proof.
  intros Hm HQ HE w. specialize (Hm w).
  destruct (m w); auto.
Qed.

Lemma ends_ret {A} (a : A) :
  ends (sample:=sample) (ret a) (fun b log => b = a /\ log = []) (fun _ => False).
Proof. intros w. simpl. auto. Qed.

Lemma ends_emit (e : event) :
  ends (emit e) (fun _ log => log = [e]) (fun _ => False).
Proof. intros w. reflexivity. Qed.

Lemma ends_pending {A} Q E : ends (sample:=sample) (A:=A) pending Q E.
Proof. intros w. exact I. Qed.

Lemma ends_raise {A} e Q (E : list event -> Prop) :
  E [] -> ends (sample:=sample) (A:=A) (raise e) Q E.
Proof. intros H w. exact H. Qed.

Lemma ends_file_op :
  ends (file_op env) (fun _ log => log = []) (fun log => log = []).
Proof. intros w. unfold file_op. destruct (io_error env (now w)); reflexivity. Qed.

Lemma ends_report pc current total :
  ends (report (sample:=sample) pc current total)
       (fun _ log => log = if pc then [Progress current total] else [])
       (fun _ => False).
Proof. intros w. destruct pc; reflexivity. Qed.

Lemma ends_checkpoint patience level tc :
  ends (checkpoint env patience level tc)
       (fun stopped log => log = if stopped then [Interrupted level] else [])
       (fun _ => False).
Proof.
  intros w. destruct tc; [|reflexivity].
  rewrite checkpoint_cases.
  destruct (_stop_requested (peek env w)); [reflexivity|].
  destruct (wait_if_paused env patience (tick env w)) as [[] w1 log|e w1 log|] eqn:Hw.
  - destruct (_stop_requested (peek env w1)); reflexivity.
  - now apply wait_never_raises in Hw.
  - exact I.
Qed.

Lemma ends_single_request audio_data language :
  ends (single_request env audio_data language)
       (fun r log => log = [Request audio_data (dev_pid_of language)]
                     /\ exists t, r = parse_response (asr env t audio_data (dev_pid_of language)))
       (fun _ => False).
Proof. intros w. simpl. split; [reflexivity|]. now exists (now w). Qed.

Lemma ends_try_except {A} (m : M A) handler Q E (E1 : list event -> Prop) :
  ends m Q E1 ->
  (forall e log1, E1 log1 ->
     ends (handler e) (fun a log2 => Q a (log1 ++ log2)) (fun log2 => E (log1 ++ log2))) ->
  ends (try_except m handler) Q E.
Proof.
  intros Hm Hh w. unfold try_except. specialize (Hm w).
  destruct (m w) as [a w1 log1|e w1 log1|]; [exact Hm| |exact I].
  specialize (Hh e log1 Hm w1). destruct (handler e w1); assumption.
Qed.

End Ends.

(** ** Reading logs piecewise *)

Section Logs.

Variable sample : Type.
Local Abbreviation event := (event sample).
Implicit Types (log : list event) (level : nat).

Lemma progress_calls_app log1 log2 :
  progress_calls (log1 ++ log2) = progress_calls log1 ++ progress_calls log2.
Proof.
  induction log1 as [|[] log1 IH]; simpl; rewrite ?IH; reflexivity.
Qed.

Lemma processed_at_app level log1 log2 :
  processed_at level (log1 ++ log2)
  = processed_at level log1 ++ processed_at level log2.
Proof.
  induction log1 as [|[] log1 IH]; simpl; rewrite ?IH; try reflexivity.
  destruct (_ =? _); reflexivity.
Qed.

Lemma exported_at_app level log1 log2 :
  exported_at level (log1 ++ log2)
  = exported_at level log1 ++ exported_at level log2.
Proof.
  induction log1 as [|[] log1 IH]; simpl; rewrite ?IH; try reflexivity.
  destruct (_ =? _); reflexivity.
Qed.

Lemma appended_at_app level log1 log2 :
  appended_at level (log1 ++ log2)
  = appended_at level log1 ++ appended_at level log2.
Proof.
  induction log1 as [|[] log1 IH]; simpl; rewrite ?IH; try reflexivity.
  destruct (_ =? _); reflexivity.
Qed.

Lemma requests_app log1 log2 :
  requests (log1 ++ log2) = requests log1 ++ requests log2.
Proof.
  induction log1 as [|[] log1 IH]; simpl; rewrite ?IH; reflexivity.
Qed.

Lemma uninterrupted_app log1 log2 :
  uninterrupted (log1 ++ log2) <-> uninterrupted log1 /\ uninterrupted log2.
Proof. unfold uninterrupted. rewrite forallb_app. apply andb_true_iff. Qed.

Lemma from_level_weaken level (e : event) :
  from_level (S level) e -> from_level level e.
Proof. destruct e; simpl; lia. Qed.

Lemma from_level_weaken_all level log :
  Forall (from_level (S level)) log -> Forall (from_level level) log.
Proof. apply Forall_impl, from_level_weaken. Qed.

(** A run nested deeper leaves nothing to read at [level]. *)
Lemma nothing_at_level level log :
  Forall (from_level (S level)) log ->
  processed_at level log = [] /\ exported_at level log = []
  /\ appended_at level log = [] /\ ~ In (Completed level) log.
Proof.
  induction 1 as [|e log He _ (IH1 & IH2 & IH3 & IH4)]; [now repeat split|].
  destruct e; simpl in *; rewrite ?IH1, ?IH2, ?IH3;
    try (destruct (Nat.eqb_spec level0 level); [lia|]);
    repeat split; try reflexivity;
    intros [Heq|Hin]; try discriminate; try now apply IH4.
  injection Heq as ->. lia.
Qed.

Lemma judged_at_app level log1 log2 :
  judged_at level (log1 ++ log2) = judged_at level log1 ++ judged_at level log2.
Proof.
  induction log1 as [|[] log1 IH]; simpl; rewrite ?IH; try reflexivity;
    destruct (_ =? _); reflexivity.
Qed.

Lemma judged_deeper level log :
  Forall (from_level (S level)) log -> judged_at level log = [].
Proof.
  induction 1 as [|e log He _ IH]; [reflexivity|].
  destruct e; simpl in *; rewrite ?IH; try reflexivity;
    (destruct (Nat.eqb_spec level0 level); [lia|reflexivity]).
Qed.

End Logs.

(** ** The loop and the chunked run log what [loop_run] and [large_run] say *)

Section Soundness.

Variable sample : Type.
Variable env : Env sample.
Variable patience : nat.
Variable transcribe : AudioSegment sample -> string -> bool -> bool -> M sample string.
Variable SubQ : AudioSegment sample -> string -> list (event sample) -> Prop.
Variable SubE : AudioSegment sample -> list (event sample) -> Prop.
Variables (level : nat) (audio : AudioSegment sample) (language : string).
Variables (progress_callback task_controller : bool).

Hypothesis transcribe_ends : forall a,
  ends (transcribe a language progress_callback task_controller)
       (SubQ a) (SubE a).

Local Abbreviation loop total :=
  (chunk_loop env patience transcribe level audio language
              progress_callback task_controller total).
Local Abbreviation run total :=
  (loop_run SubQ SubE level audio progress_callback total).

Lemma loop_cons total i rest ts :
  loop total (i :: rest) ts =
  bind (checkpoint env patience level task_controller) (fun stopped =>
    if stopped : bool then ret (inl stopped_msg)
    else
      bind (emit (Processing level i total)) (fun _ =>
      bind (report progress_callback i total) (fun _ =>
      bind (file_op env) (fun _ =>
      bind (emit (Exported level i (chunk audio i))) (fun _ =>
      bind (transcribe (chunk audio i) language progress_callback task_controller)
        (fun chunk_result =>
          if (chunk_result =? stopped_msg)%string then ret (inl chunk_result)
          else if negb (String.prefix error_prefix chunk_result) then
            bind (emit (ChunkOk level i chunk_result)) (fun _ =>
              loop total rest (ts ++ [chunk_result]))
          else
            bind (emit (ChunkFailed level i chunk_result)) (fun _ =>
              loop total rest ts))))))).
Proof. reflexivity. Qed.

Lemma loop_sound total todo : forall ts,
  ends (loop total todo ts)
       (fun res log => run total todo ts (Some res) log)
       (fun log => run total todo ts None log).
Proof.
  induction todo as [|i rest IH]; intros ts.
  - eapply ends_mono; [apply ends_ret| |intros ? []].
    intros a log [-> ->]. constructor.
  - rewrite loop_cons.
    eapply ends_bind; [apply ends_checkpoint|intros ? []|intros stopped log1 ->].
    destruct stopped.
    { eapply ends_mono; [apply ends_ret| |intros ? []].
      intros a log [-> ->]. constructor. }
    eapply ends_bind; [apply ends_emit|intros ? []|intros _ log2 ->].
    eapply ends_bind; [apply ends_report|intros ? []|intros _ log3 ->].
    eapply ends_bind; [apply ends_file_op| |intros _ log4 ->].
    { intros ? ->. simpl. rewrite ?app_nil_r. apply run_export_raised. }
    eapply ends_bind; [apply ends_emit|intros ? []|intros _ log5 ->].
    eapply ends_bind; [apply transcribe_ends| |intros chunk_result sub Hsub].
    { intros sub Hsub. simpl. rewrite ?app_nil_r.
      apply run_chunk_raised; assumption. }
    destruct (String.eqb_spec chunk_result stopped_msg) as [->|Hne].
    { eapply ends_mono; [apply ends_ret| |intros ? []].
      intros a log [-> ->]. simpl. rewrite ?app_nil_r.
      apply run_forwarded; assumption. }
    destruct (String.prefix error_prefix chunk_result) eqn:Hp; simpl.
    + eapply ends_bind; [apply ends_emit|intros ? []|intros _ log7 ->].
      eapply ends_mono; [apply IH| |]; simpl; intros; rewrite ?app_nil_r;
        apply run_dropped; assumption.
    + eapply ends_bind; [apply ends_emit|intros ? []|intros _ log7 ->].
      eapply ends_mono; [apply IH| |]; simpl; intros; rewrite ?app_nil_r;
        apply run_appended; assumption.
Qed.

(** The chunked run never raises: what goes wrong inside is caught. *)
Lemma large_sound :
  ends (large_body env patience transcribe level audio language
                   progress_callback task_controller)
       (large_run SubQ SubE level audio progress_callback)
       (fun _ => False).
Proof.
  unfold large_body.
  eapply ends_try_except with
    (E1 := fun log => log = []
                      \/ run (chunks_number audio) (seq 0 (chunks_number audio)) [] None log).
  - eapply ends_bind; [apply ends_file_op| |intros _ log1 ->].
    { intros ? ->. now left. }
    eapply ends_bind; [apply loop_sound| |intros res log2 Hrun].
    { intros log2 Hrun. now right. }
    destruct res as [r|ts].
    + eapply ends_mono; [apply ends_ret| |intros ? []].
      intros a log [-> ->]. simpl. rewrite ?app_nil_r. now apply large_left.
    + eapply ends_bind; [apply ends_report|intros ? []|intros _ log3 ->].
      eapply ends_bind; [apply ends_emit|intros ? []|intros _ log4 ->].
      eapply ends_mono; [apply ends_ret| |intros ? []].
      intros a log [-> ->]. simpl. rewrite ?app_nil_r.
      now apply large_completed.
  - intros e log1 Hlog1.
    eapply ends_bind; [apply ends_emit|intros ? []|intros _ log2 ->].
    eapply ends_mono; [apply ends_ret| |intros ? []].
    intros a log [-> ->]. rewrite app_nil_r.
    destruct Hlog1 as [->|Hrun]; [apply large_unreadable|now apply large_aborted].
Qed.

End Soundness.
(** ** What every run of the two functions has returned and logged *)

Section StopAndLevels.

Variable sample : Type.
Local Abbreviation event := (event sample).
Implicit Types (log sub : list event).

Lemma stop_ok_prepend r pre log :
  uninterrupted pre -> stop_ok r log -> stop_ok r (pre ++ log).
Proof.
  intros Hpre [Hlog|(-> & log0 & l & -> & Hlog0)].
  - left. now apply uninterrupted_app.
  - right. split; [reflexivity|]. exists (pre ++ log0), l.
    split; [now rewrite app_assoc|]. now apply uninterrupted_app.
Qed.

Lemma stop_ok_append r log post :
  uninterrupted log -> uninterrupted post -> stop_ok r (log ++ post).
Proof. intros H1 H2. left. now apply uninterrupted_app. Qed.

(** A result other than the stopped message comes with a log in which no
    check point found the flag set. *)
Lemma stop_ok_other r log :
  stop_ok r log -> r <> stopped_msg -> uninterrupted log.
Proof. intros [H|[-> _]] Hr; [exact H|contradiction]. Qed.

Lemma interrupted_last log0 l :
  ~ uninterrupted (log0 ++ [Interrupted l] : list event).
Proof.
  intros H. apply uninterrupted_app in H as [_ H]. discriminate.
Qed.

Variable SubQ : AudioSegment sample -> string -> list event -> Prop.
Variable SubE : AudioSegment sample -> list event -> Prop.
Variables (level : nat) (audio : AudioSegment sample).
Variable progress_callback : bool.

Hypothesis SubQ_ok : forall a r sub,
  SubQ a r sub -> Forall (from_level (S level)) sub /\ stop_ok r sub.
Hypothesis SubE_ok : forall a sub, SubE a sub -> sub = [].

Local Abbreviation run := (loop_run SubQ SubE level audio progress_callback).
Local Abbreviation opens := (opening (sample:=sample) level progress_callback).

Lemma opening_uninterrupted total i : uninterrupted (opens total i).
Proof. unfold opening. destruct progress_callback; reflexivity. Qed.

Lemma opening_from_level total i : Forall (from_level level) (opens total i).
Proof.
  unfold opening.
  destruct progress_callback; repeat constructor.
Qed.

Lemma iteration_assoc total i c sub (e : event) log :
  opens total i ++ Exported level i c :: sub ++ e :: log
  = (opens total i ++ Exported level i c :: sub ++ [e]) ++ log.
Proof.
  rewrite <- !app_assoc. simpl. rewrite <- app_assoc. reflexivity.
Qed.

Lemma iteration_uninterrupted total i c sub (e : event) :
  uninterrupted sub -> is_interrupted e = false ->
  uninterrupted (opens total i ++ Exported level i c :: sub ++ [e]).
Proof.
  intros Hsub He. apply uninterrupted_app. split; [apply opening_uninterrupted|].
  change (uninterrupted ([Exported level i c] ++ sub ++ [e])).
  rewrite !uninterrupted_app. repeat split; [exact Hsub|].
  unfold uninterrupted. simpl. now rewrite He.
Qed.

Lemma loop_run_stop total todo ts res log :
  run total todo ts res log ->
  match res with
  | Some (inl r) => stop_ok r log
  | _ => uninterrupted log
  end.
Proof.
  induction 1 as [ts|i rest ts|i rest ts|i rest ts sub Hsub
                  |i rest ts sub Hsub
                  |i rest ts sub r res log Hsub Hr Hp Hrun IH
                  |i rest ts sub r res log Hsub Hr Hp Hrun IH].
  - reflexivity.
  - right. split; [reflexivity|]. now exists [], level.
  - apply opening_uninterrupted.
  - apply SubE_ok in Hsub as ->.
    apply uninterrupted_app. split; [apply opening_uninterrupted|reflexivity].
  - apply SubQ_ok in Hsub as [_ Hsub].
    change (stop_ok stopped_msg (opens total i ++ [Exported level i (chunk audio i)] ++ sub)).
    rewrite app_assoc. apply stop_ok_prepend; [|exact Hsub].
    apply uninterrupted_app. split; [apply opening_uninterrupted|reflexivity].
  - apply SubQ_ok in Hsub as [_ Hsub].
    apply stop_ok_other in Hsub; [|exact Hr].
    rewrite iteration_assoc.
    pose proof (iteration_uninterrupted total i (chunk audio i) sub
                  (ChunkOk level i r) Hsub eq_refl) as Hpre.
    destruct res as [[r'|ts']|]; [now apply stop_ok_prepend|..];
      now apply uninterrupted_app.
  - apply SubQ_ok in Hsub as [_ Hsub].
    apply stop_ok_other in Hsub; [|exact Hr].
    rewrite iteration_assoc.
    pose proof (iteration_uninterrupted total i (chunk audio i) sub
                  (ChunkFailed level i r) Hsub eq_refl) as Hpre.
    destruct res as [[r'|ts']|]; [now apply stop_ok_prepend|..];
      now apply uninterrupted_app.
Qed.

Lemma loop_run_levels total todo ts res log :
  run total todo ts res log -> Forall (from_level level) log.
Proof.
  induction 1 as [ts|i rest ts|i rest ts|i rest ts sub Hsub
                  |i rest ts sub Hsub
                  |i rest ts sub r res log Hsub Hr Hp Hrun IH
                  |i rest ts sub r res log Hsub Hr Hp Hrun IH];
    try (apply SubQ_ok in Hsub as [Hsub _];
         apply from_level_weaken_all in Hsub);
    try (apply SubE_ok in Hsub as ->);
    repeat first [ apply opening_from_level
                 | assumption
                 | apply Forall_app; split
                 | apply Forall_cons; [simpl; lia|]
                 | apply Forall_nil ].
Qed.

Local Abbreviation large := (large_run SubQ SubE level audio progress_callback).

Lemma large_run_stop r log : large r log -> stop_ok r log.
Proof.
  intros [e|e log' Hrun|r' log' Hrun|ts log' Hrun].
  - now left.
  - apply loop_run_stop in Hrun. now apply stop_ok_append.
  - now apply loop_run_stop in Hrun.
  - apply loop_run_stop in Hrun. apply stop_ok_append; [exact Hrun|].
    destruct progress_callback; reflexivity.
Qed.

Lemma large_run_levels r log : large r log -> Forall (from_level level) log.
Proof.
  intros [e|e log' Hrun|r' log' Hrun|ts log' Hrun];
    try apply loop_run_levels in Hrun;
    repeat first [ assumption
                 | apply Forall_app; split
                 | apply Forall_cons; [simpl; lia|]
                 | apply Forall_nil ].
  destruct progress_callback; repeat constructor.
Qed.

End StopAndLevels.

Section AllRuns.

Variable sample : Type.
Variable env : Env sample.
Variable patience : nat.

Lemma transcribe_audio_baidu_unfold fuel level a language pc tc :
  transcribe_audio_baidu env patience fuel level a language pc tc
  = baidu_body env
      (match fuel with
       | 0 => fun _ _ _ _ => raise (recursion_error env)
       | S fuel' =>
           large_body env patience
             (transcribe_audio_baidu env patience fuel' (S level)) level
       end) a language pc tc.
Proof. destruct fuel; reflexivity. Qed.

Lemma baidu_run_sub level language a r sub :
  baidu_run env (S level) language a r sub ->
  Forall (from_level (S level)) sub /\ stop_ok r sub.
Proof. intros (H1 & H2 & _). now split. Qed.

Lemma baidu_raise_sub (a : AudioSegment sample) sub :
  baidu_raise a sub -> sub = [].
Proof. exact (fun H => H). Qed.

(** Every call of [transcribe_audio_baidu] that ends ends as [baidu_run]
    and [baidu_raise] say. *)
Theorem baidu_runs fuel : forall level a language pc tc,
  ends (transcribe_audio_baidu env patience fuel level a language pc tc)
       (baidu_run env level language a) (baidu_raise a).
Proof.
  induction fuel as [|fuel IH]; intros level a language pc tc;
    rewrite transcribe_audio_baidu_unfold; unfold baidu_body, baidu_run;
    destruct (keys_missing env) eqn:Hkeys.
  1, 3: eapply ends_mono; [apply ends_ret| |intros ? []];
    intros r log [-> ->]; repeat split; [constructor|now left].
  all: eapply ends_bind; [apply ends_file_op|intros ? ->; reflexivity
                          |intros _ log1 ->]; simpl.
  all: destruct (N.ltb_spec size_limit (wav_size env a)) as [Hbig|Hfit].
  - apply ends_raise. reflexivity.
  - eapply ends_mono; [apply ends_single_request| |intros ? []].
    intros r log [-> Hr]. repeat split; [repeat constructor|now left|exact Hr].
  - eapply ends_mono;
      [apply (large_sound sample env patience _ _ _ level a language pc tc
                          (fun a' => IH (S level) a' language pc tc))
      | |intros ? []].
    intros r log Hrun. split; [|split].
    + exact (large_run_levels sample _ _ level a pc
               (baidu_run_sub level language) baidu_raise_sub r log Hrun).
    + exact (large_run_stop sample _ _ level a pc
               (baidu_run_sub level language) baidu_raise_sub r log Hrun).
    + intros Hfit. lia.
  - eapply ends_mono; [apply ends_single_request| |intros ? []].
    intros r log [-> Hr]. repeat split; [repeat constructor|now left|exact Hr].
Qed.

(** Every chunked run that ends has returned, as [large_run] says. *)
Theorem large_runs fuel level audio language pc tc :
  ends (transcribe_large_audio_baidu env patience fuel level audio language pc tc)
       (large_run (baidu_run env (S level) language) baidu_raise level audio pc)
       (fun _ => False).
Proof.
  apply large_sound. intros a. apply baidu_runs.
Qed.

End AllRuns.

(** ** What the log of the loop tells *)

Section Reads.

Variable sample : Type.
Local Abbreviation event := (event sample).
Implicit Types (log sub : list event).

Variable SubQ : AudioSegment sample -> string -> list event -> Prop.
Variable SubE : AudioSegment sample -> list event -> Prop.
Variables (level : nat) (audio : AudioSegment sample).
Variable progress_callback : bool.

Hypothesis SubQ_ok : forall a r sub,
  SubQ a r sub -> Forall (from_level (S level)) sub /\ stop_ok r sub.
Hypothesis SubE_ok : forall a sub, SubE a sub -> sub = [].

Local Abbreviation run := (loop_run SubQ SubE level audio progress_callback).
Local Abbreviation opens := (opening (sample:=sample) level progress_callback).

Lemma opening_reads total i :
  processed_at level (opens total i) = [i]
  /\ exported_at level (opens total i) = []
  /\ appended_at level (opens total i) = []
  /\ requests (opens total i) = []
  /\ progress_calls (opens total i)
     = (if progress_callback then [(i, total)] else [])
  /\ ~ In (Completed level) (opens total i).
Proof.
  unfold opening. simpl. rewrite Nat.eqb_refl.
  destruct progress_callback; simpl; repeat split; try reflexivity;
    intros H; repeat (destruct H as [H|H]; try discriminate); exact H.
Qed.

Ltac sub_facts :=
  repeat match goal with
  | H : SubQ _ _ _ |- _ =>
      apply SubQ_ok in H as [H _]; apply nothing_at_level in H;
      destruct H as (? & ? & ? & ?)
  | H : SubE _ _ |- _ => apply SubE_ok in H; subst
  end.

Ltac read_opening :=
  repeat match goal with
  | |- context [processed_at level (opens ?t ?i)] =>
      rewrite (proj1 (opening_reads t i))
  | |- context [exported_at level (opens ?t ?i)] =>
      rewrite (proj1 (proj2 (opening_reads t i)))
  | |- context [appended_at level (opens ?t ?i)] =>
      rewrite (proj1 (proj2 (proj2 (opening_reads t i))))
  end.

Ltac read :=
  repeat progress
         (rewrite ?processed_at_app, ?exported_at_app, ?appended_at_app;
          read_opening;
          repeat match goal with
          | H : processed_at level ?s = [] |- context [processed_at level ?s] => rewrite H
          | H : exported_at level ?s = [] |- context [exported_at level ?s] => rewrite H
          | H : appended_at level ?s = [] |- context [appended_at level ?s] => rewrite H
          end;
          simpl; rewrite ?Nat.eqb_refl).

(** The loop takes the indices up in the order of [todo], none skipped,
    none twice; all of them when it runs to its end. *)
Lemma loop_run_processed total todo ts res log :
  run total todo ts res log ->
  (exists k, processed_at level log = firstn k todo)
  /\ (forall ts', res = Some (inr ts') -> processed_at level log = todo).
Proof.
  induction 1 as [ts|i rest ts|i rest ts|i rest ts sub Hsub
                  |i rest ts sub Hsub
                  |i rest ts sub r res log Hsub Hr Hp Hrun [[k IH1] IH2]
                  |i rest ts sub r res log Hsub Hr Hp Hrun [[k IH1] IH2]];
    sub_facts; read.
  - split; [now exists 0|reflexivity].
  - split; [now exists 0|discriminate].
  - split; [now exists 1|discriminate].
  - split; [now exists 1|discriminate].
  - split; [now exists 1|discriminate].
  - split; [exists (S k); simpl; now rewrite IH1|].
    intros ts' Hres. now rewrite (IH2 ts' Hres).
  - split; [exists (S k); simpl; now rewrite IH1|].
    intros ts' Hres. now rewrite (IH2 ts' Hres).
Qed.

(** It exports them in that order, each chunk under its index. *)
Lemma loop_run_exported total todo ts res log :
  run total todo ts res log ->
  (exists k, exported_at level log = map (export_of audio) (firstn k todo))
  /\ (forall ts', res = Some (inr ts') ->
                  exported_at level log = map (export_of audio) todo).
Proof.
  induction 1 as [ts|i rest ts|i rest ts|i rest ts sub Hsub
                  |i rest ts sub Hsub
                  |i rest ts sub r res log Hsub Hr Hp Hrun [[k IH1] IH2]
                  |i rest ts sub r res log Hsub Hr Hp Hrun [[k IH1] IH2]];
    sub_facts; read.
  - split; [now exists 0|reflexivity].
  - split; [now exists 0|discriminate].
  - split; [now exists 0|discriminate].
  - split; [now exists 1|discriminate].
  - split; [now exists 1|discriminate].
  - split; [exists (S k); simpl; now rewrite IH1|].
    intros ts' Hres. now rewrite (IH2 ts' Hres).
  - split; [exists (S k); simpl; now rewrite IH1|].
    intros ts' Hres. now rewrite (IH2 ts' Hres).
Qed.

(** What it has appended to [transcription] is what it logged as
    recognized. *)
Lemma loop_run_appended total todo ts res log :
  run total todo ts res log ->
  forall ts', res = Some (inr ts') -> ts' = ts ++ appended_at level log.
Proof.
  induction 1 as [ts|i rest ts|i rest ts|i rest ts sub Hsub
                  |i rest ts sub Hsub
                  |i rest ts sub r res log Hsub Hr Hp Hrun IH
                  |i rest ts sub r res log Hsub Hr Hp Hrun IH];
    intros ts' Hres; try discriminate; sub_facts; read.
  - injection Hres as <-. now rewrite app_nil_r.
  - rewrite (IH ts' Hres), <- app_assoc. reflexivity.
  - exact (IH ts' Hres).
Qed.

(** The loop itself does not log the completion of the run. *)
Lemma loop_run_not_completed total todo ts res log :
  run total todo ts res log -> ~ In (Completed level) log.
Proof.
  induction 1 as [ts|i rest ts|i rest ts|i rest ts sub Hsub
                  |i rest ts sub Hsub
                  |i rest ts sub r res log Hsub Hr Hp Hrun IH
                  |i rest ts sub r res log Hsub Hr Hp Hrun IH];
    sub_facts; unfold opening; destruct progress_callback;
    repeat (progress (rewrite ?in_app_iff; simpl));
    intuition discriminate.
Qed.

Lemma judged_opening total i : judged_at level (opens total i) = [].
Proof. unfold opening. now destruct progress_callback. Qed.

(** The three stages of a chunk: taken up (line 252), exported (line 269),
    its result kept or dropped (lines 280-284).  The loop carries every
    index through them before it takes the next one up: at most the last
    index taken up is left unfinished. *)
Lemma loop_run_stages total todo ts res log :
  run total todo ts res log ->
  exists k k' k'',
    processed_at level log = firstn k todo
    /\ exported_at level log = map (export_of audio) (firstn k' todo)
    /\ judged_at level log = firstn k'' todo
    /\ k'' <= k' /\ k' <= k /\ k <= length todo /\ k <= k'' + 1
    /\ (forall ts', res = Some (inr ts') -> k'' = length todo).
Proof.
  induction 1 as [ts|i rest ts|i rest ts|i rest ts sub Hsub
                  |i rest ts sub Hsub
                  |i rest ts sub r res log Hsub Hr Hp Hrun
                     (k & k' & k'' & IH1 & IH2 & IH3 & IH)
                  |i rest ts sub r res log Hsub Hr Hp Hrun
                     (k & k' & k'' & IH1 & IH2 & IH3 & IH)];
    try (pose proof (judged_deeper _ _ _ (proj1 (SubQ_ok _ _ _ Hsub))) as Hj);
    sub_facts; read;
    rewrite ?judged_at_app, ?judged_opening; simpl;
    rewrite ?judged_at_app, ?Hj, ?Nat.eqb_refl; simpl.
  - exists 0, 0, 0. repeat split; try lia; try discriminate.
  - exists 0, 0, 0. repeat split; try lia; try discriminate.
  - exists 1, 0, 0. destruct progress_callback; simpl;
      repeat split; try lia; try discriminate.
  - exists 1, 1, 0. destruct progress_callback; simpl;
      repeat split; try lia; try discriminate.
  - exists 1, 1, 0. destruct progress_callback; simpl;
      repeat split; try lia; try discriminate; assumption.
  - exists (S k), (S k'), (S k'').
    destruct IH as (? & ? & ? & ? & IH).
    destruct progress_callback; simpl;
      rewrite ?IH1, ?IH2, ?IH3, ?Nat.eqb_refl;
      (repeat split; try lia); intros ts' Hres; now rewrite (IH ts' Hres).
  - exists (S k), (S k'), (S k'').
    destruct IH as (? & ? & ? & ? & IH).
    destruct progress_callback; simpl;
      rewrite ?IH1, ?IH2, ?IH3, ?Nat.eqb_refl;
      (repeat split; try lia); intros ts' Hres; now rewrite (IH ts' Hres).
Qed.

End Reads.

(** ** Chunks sent as single requests *)

Section Flat.

Variable sample : Type.
Local Abbreviation event := (event sample).
Implicit Types (log sub : list event).

Variable SubQ : AudioSegment sample -> string -> list event -> Prop.
Variable SubE : AudioSegment sample -> list event -> Prop.
Variables (level : nat) (audio : AudioSegment sample).
Variable progress_callback : bool.
Variable fit : nat -> Prop.
Variable dev_pid : option Z.

Hypothesis SubQ_flat : forall i r sub,
  fit i -> SubQ (chunk audio i) r sub ->
  sub = [] \/ sub = [Request (chunk audio i) dev_pid].
Hypothesis SubQ_asks : forall i r sub,
  fit i -> SubQ (chunk audio i) r sub ->
  In (Request (chunk audio i) dev_pid) sub.
Hypothesis SubE_ok : forall a sub, SubE a sub -> sub = [].

Local Abbreviation run := (loop_run SubQ SubE level audio progress_callback).

(** When the chunks are sent as single requests, the loop calls the
    progress callback once for each index it takes up, with that index. *)
Lemma loop_run_progress total todo ts res log :
  run total todo ts res log -> Forall fit todo ->
  progress_calls log
  = if progress_callback
    then map (fun i => (i, total)) (processed_at level log) else [].
Proof.
  induction 1 as [ts|i rest ts|i rest ts|i rest ts sub Hsub
                  |i rest ts sub Hsub
                  |i rest ts sub r res log Hsub Hr Hp Hrun IH
                  |i rest ts sub r res log Hsub Hr Hp Hrun IH];
    intros Hfit;
    try (apply Forall_cons_iff in Hfit as [Hi Hrest]);
    try (apply (SubQ_flat i _ _ Hi) in Hsub as [Hsub|Hsub]; subst sub);
    try (apply SubE_ok in Hsub; subst sub);
    try specialize (IH Hrest);
    unfold opening;
    rewrite ?progress_calls_app, ?processed_at_app; simpl;
    rewrite ?progress_calls_app, ?processed_at_app; simpl;
    rewrite ?Nat.eqb_refl, ?IH;
    destruct progress_callback; simpl; rewrite ?Nat.eqb_refl; reflexivity.
Qed.

(** A loop that ran to its end exported every chunk, and sent to the
    service each one that fits a single request. *)
Lemma loop_run_submitted total todo ts res log :
  run total todo ts res log ->
  forall ts', res = Some (inr ts') ->
  forall i, In i todo ->
    In (Exported level i (chunk audio i)) log
    /\ (fit i -> In (Request (chunk audio i) dev_pid) log).
Proof.
  induction 1 as [ts|i rest ts|i rest ts|i rest ts sub Hsub
                  |i rest ts sub Hsub
                  |i rest ts sub r res log Hsub Hr Hp Hrun IH
                  |i rest ts sub r res log Hsub Hr Hp Hrun IH];
    intros ts' Hres j Hj; try discriminate; try contradiction.
  - destruct Hj as [<-|Hj].
    + split; [apply in_or_app; right; now left|].
      intros Hi. apply in_or_app. right. right. apply in_or_app. left.
      exact (SubQ_asks i r sub Hi Hsub).
    + destruct (IH ts' Hres j Hj) as [H1 H2].
      split; [|intros Hi; specialize (H2 Hi)];
        apply in_or_app; right; right; apply in_or_app; right; now right.
  - destruct Hj as [<-|Hj].
    + split; [apply in_or_app; right; now left|].
      intros Hi. apply in_or_app. right. right. apply in_or_app. left.
      exact (SubQ_asks i r sub Hi Hsub).
    + destruct (IH ts' Hres j Hj) as [H1 H2].
      split; [|intros Hi; specialize (H2 Hi)];
        apply in_or_app; right; right; apply in_or_app; right; now right.
Qed.

End Flat.

(** ** The chunked run as a whole *)

Lemma firstn_seq (k : nat) : forall start len,
  firstn k (seq start len) = seq start (Nat.min k len).
Proof.
  induction k as [|k IH]; intros start [|len]; try reflexivity.
  simpl. now rewrite IH.
Qed.

Section Whole.

Variable sample : Type.
Variable env : Env sample.
Variable patience : nat.
Variables (fuel level : nat) (audio : AudioSegment sample) (language : string).
Variables (progress_callback task_controller : bool).

Local Abbreviation event := (event sample).
Local Abbreviation SubQ := (baidu_run env (S level) language).
Local Abbreviation large :=
  (large_run SubQ baidu_raise level audio progress_callback).
Local Abbreviation run :=
  (loop_run SubQ baidu_raise level audio progress_callback
            (chunks_number audio) (seq 0 (chunks_number audio)) []).
Local Abbreviation final :=
  ((if progress_callback
    then [Progress (sample:=sample) (chunks_number audio) (chunks_number audio)]
    else []) ++ [Completed level]).

Lemma SubQ_ok a r sub :
  SubQ a r sub -> Forall (from_level (S level)) sub /\ stop_ok r sub.
Proof. apply baidu_run_sub. Qed.

(** A run whose log records the completion ran its loop to the end. *)
Lemma large_run_completed r (log : list event) :
  large r log -> In (Completed level) log ->
  exists ts log', run (Some (inr ts)) log'
                  /\ r = join ts /\ log = log' ++ final.
Proof.
  intros [e|e log' Hrun|r' log' Hrun|ts log' Hrun] Hin.
  - destruct Hin as [Hin|[]]. discriminate.
  - apply in_app_or in Hin as [Hin|[Hin|[]]]; [|discriminate].
    now apply (loop_run_not_completed sample _ _ level audio _
                 SubQ_ok (baidu_raise_sub sample)) in Hrun.
  - now apply (loop_run_not_completed sample _ _ level audio _
                 SubQ_ok (baidu_raise_sub sample)) in Hrun.
  - exists ts, log'. split; [exact Hrun|]. split; reflexivity.
Qed.

Lemma final_reads :
  processed_at level final = [] /\ exported_at level final = []
  /\ appended_at level final = []
  /\ progress_calls final
     = if progress_callback
       then [(chunks_number audio, chunks_number audio)] else [].
Proof. destruct progress_callback; repeat split. Qed.

End Whole.

(** ** Runs that nothing disturbs *)

Section Undisturbed.

Variable sample : Type.
Variable env : Env sample.
Variable patience : nat.

Local Abbreviation undisturbed := (undisturbed env patience).

Lemma bind_returns {A B} (m : M sample A) (k : A -> M sample B) w a w1 log1 b w2 log2 :
  m w = Returned a w1 log1 -> k a w1 = Returned b w2 log2 ->
  bind m k w = Returned b w2 (log1 ++ log2).
Proof. intros Hm Hk. unfold bind. now rewrite Hm, Hk. Qed.

Lemma report_returns pc current total w :
  report (sample:=sample) pc current total w
  = Returned tt w (if pc then [Progress current total] else []).
Proof. destruct pc; reflexivity. Qed.

Lemma undisturbed_ticks n w : undisturbed w -> undisturbed (ticks env n w).
Proof.
  intros [H1 H2 H3]. split.
  - intros k. rewrite ticks_add. apply H1.
  - intros k. destruct (H2 (k + n)) as (d & Hd & Hp). exists d. split; [exact Hd|].
    rewrite ticks_add. now replace (k + d + n) with (k + n + d) by lia.
  - intros k. rewrite now_ticks, <- Nat.add_assoc. apply H3.
Qed.

Lemma undisturbed_tick w : undisturbed w -> undisturbed (tick env w).
Proof. apply (undisturbed_ticks 1). Qed.

(** [wait_if_paused] returns when the controller lets it proceed within
    its polls. *)
Lemma wait_finds d : forall p w,
  d < p -> may_proceed (peek env (ticks env d w)) = true ->
  exists d', wait_if_paused env p w = Returned tt (ticks env (S d') w) [].
Proof.
  induction d as [|d IH]; intros [|p] w Hd Hready; try lia.
  - exists 0. now apply wait_ready.
  - destruct (may_proceed (peek env w)) eqn:Hw.
    + exists 0. now apply wait_ready.
    + rewrite wait_blocked by exact Hw.
      destruct (IH p (tick env w)) as [d' Hd']; [lia|now rewrite ticks_tick|].
      exists (S d'). now rewrite Hd', ticks_tick.
Qed.

Lemma checkpoint_undisturbed level tc w :
  undisturbed w ->
  exists w', checkpoint env patience level tc w = Returned false w' []
             /\ undisturbed w'.
Proof.
  intros Hw. destruct tc; [|now exists w].
  rewrite checkpoint_cases.
  rewrite (never_stopped _ _ _ _ Hw 0 : _stop_requested (peek env w) = false).
  destruct (pauses_end _ _ _ _ Hw 1) as (d & Hd & Hp).
  destruct (wait_finds d patience (tick env w) Hd) as [d' Hwait].
  { rewrite ticks_tick. unfold may_proceed.
    change (1 + d) with (S d) in Hp. now rewrite Hp. }
  rewrite Hwait, ticks_tick.
  rewrite (never_stopped _ _ _ _ Hw (S (S d'))).
  exists (tick env (ticks env (S (S d')) w)). split; [reflexivity|].
  now apply undisturbed_tick, undisturbed_ticks.
Qed.

Lemma file_op_undisturbed w :
  undisturbed w -> file_op env w = Returned tt (tick env w) [].
Proof.
  intros Hw. unfold file_op.
  pose proof (no_io_error _ _ _ _ Hw 0) as H. rewrite Nat.add_0_r in H.
  now rewrite H.
Qed.

Hypothesis quiet_service : never_says_stopped env.

Lemma missing_keys_not_stopped : missing_keys_msg <> stopped_msg.
Proof. discriminate. Qed.

(** A chunk within the limit is settled without a nested run. *)
Lemma transcribe_fitting fuel level a language pc tc w :
  (wav_size env a <= size_limit)%N -> undisturbed w ->
  exists r w' log,
    transcribe_audio_baidu env patience fuel level a language pc tc w
    = Returned r w' log
    /\ r <> stopped_msg /\ undisturbed w'.
Proof.
  intros Hfit Hw. rewrite transcribe_audio_baidu_unfold. unfold baidu_body.
  destruct (keys_missing env).
  - exists missing_keys_msg, w, [].
    split; [reflexivity|split; [discriminate|exact Hw]].
  - unfold bind. rewrite (file_op_undisturbed w Hw).
    destruct (N.ltb_spec size_limit (wav_size env a)) as [Hbig|_]; [lia|].
    simpl. eexists _, _, _. split; [reflexivity|split].
    + apply quiet_service.
    + now apply (undisturbed_ticks 2).
Qed.

Variables (fuel level : nat) (audio : AudioSegment sample) (language : string).
Variables (progress_callback task_controller : bool).

Local Abbreviation loop total :=
  (chunk_loop env patience
     (transcribe_audio_baidu env patience fuel (S level))
     level audio language progress_callback task_controller total).

Lemma loop_completes total todo : forall ts w,
  Forall (fun i => (wav_size env (chunk audio i) <= size_limit)%N) todo ->
  undisturbed w ->
  exists ts' w' log,
    loop total todo ts w = Returned (inr ts') w' log /\ undisturbed w'.
Proof.
  induction todo as [|i rest IH]; intros ts w Hfit Hw.
  - now exists ts, w, [].
  - apply Forall_cons_iff in Hfit as [Hi Hrest].
    destruct (checkpoint_undisturbed level task_controller w Hw)
      as (w1 & Hcheck & Hw1).
    pose proof (file_op_undisturbed w1 Hw1) as Hexport.
    destruct (transcribe_fitting fuel (S level) (chunk audio i) language
                progress_callback task_controller (tick env w1) Hi
                (undisturbed_tick w1 Hw1))
      as (r & w2 & sub & Hsub & Hr & Hw2).
    apply String.eqb_neq in Hr.
    destruct (String.prefix error_prefix r) eqn:Hp.
    + destruct (IH ts w2 Hrest Hw2) as (ts' & w' & log & Hloop & Hw').
      exists ts', w'. eexists. split; [|exact Hw'].
      rewrite loop_cons.
      eapply bind_returns; [exact Hcheck|]. simpl.
      eapply bind_returns; [reflexivity|].
      eapply bind_returns; [apply report_returns|].
      eapply bind_returns; [exact Hexport|].
      eapply bind_returns; [reflexivity|].
      eapply bind_returns; [exact Hsub|].
      rewrite Hr, Hp. simpl.
      eapply bind_returns; [reflexivity|exact Hloop].
    + destruct (IH (ts ++ [r]) w2 Hrest Hw2) as (ts' & w' & log & Hloop & Hw').
      exists ts', w'. eexists. split; [|exact Hw'].
      rewrite loop_cons.
      eapply bind_returns; [exact Hcheck|]. simpl.
      eapply bind_returns; [reflexivity|].
      eapply bind_returns; [apply report_returns|].
      eapply bind_returns; [exact Hexport|].
      eapply bind_returns; [reflexivity|].
      eapply bind_returns; [exact Hsub|].
      rewrite Hr, Hp. simpl.
      eapply bind_returns; [reflexivity|exact Hloop].
Qed.

(** A chunked run that nothing disturbs, on chunks within the limit,
    runs to its end. *)
Lemma large_completes w :
  chunks_fit env audio -> undisturbed w ->
  exists r w' log,
    transcribe_large_audio_baidu env patience fuel level audio language
      progress_callback task_controller w = Returned r w' log
    /\ In (Completed level) log.
Proof.
  intros Hfit Hw.
  destruct (loop_completes (chunks_number audio) (seq 0 (chunks_number audio))
              [] (tick env w)) as (ts & w' & log & Hloop & _).
  { apply Forall_forall. intros i Hi. apply Hfit. apply in_seq in Hi. lia. }
  { now apply undisturbed_tick. }
  exists (join ts), w'. eexists. split.
  - unfold transcribe_large_audio_baidu, large_body, try_except.
    erewrite bind_returns; [reflexivity|now apply file_op_undisturbed|].
    eapply bind_returns; [exact Hloop|].
    eapply bind_returns; [apply report_returns|].
    eapply bind_returns; reflexivity.
  - apply in_or_app. right. apply in_or_app. right.
    apply in_or_app. right. now left.
Qed.

End Undisturbed.

(** ** A stop that no check point finds *)

Lemma contains_middle c t u : contains c (t ++ String c u) = true.
Proof.
  induction t as [|a t IH]; simpl.
  - now rewrite Ascii.eqb_refl.
  - rewrite IH. apply orb_true_r.
Qed.

Lemma join_not_stopped ts :
  Forall (fun t => t <> stopped_msg) ts -> join ts <> stopped_msg.
Proof.
  intros Hts. destruct ts as [|t [|t' ts]].
  - discriminate.
  - now apply Forall_inv in Hts.
  - intros H. change (join (t :: t' :: ts))
      with (t ++ String "010" (join (t' :: ts)))%string in H.
    pose proof (contains_middle "010" t (join (t' :: ts))) as Hc.
    rewrite H in Hc. discriminate.
Qed.

Lemma large_error_not_stopped e : large_error_msg e <> stopped_msg.
Proof. unfold large_error_msg. simpl. discriminate. Qed.

Section Unnoticed.

Variable sample : Type.
Variable env : Env sample.
Variable patience : nat.

Local Abbreviation event := (event sample).
Local Abbreviation kept := (Forall (fun t : string => t <> stopped_msg)).

Lemma uninterrupted_iteration level pc total i c (sub : list event) e log :
  uninterrupted (opening level pc total i ++ Exported level i c :: sub ++ e :: log) ->
  uninterrupted sub /\ uninterrupted log.
Proof.
  intros H. apply uninterrupted_app in H as [_ H].
  change (uninterrupted ([Exported level i c] ++ sub ++ [e] ++ log)) in H.
  rewrite !uninterrupted_app in H. tauto.
Qed.

Lemma uninterrupted_forwarded level pc total i c (sub : list event) :
  uninterrupted (opening level pc total i ++ Exported level i c :: sub) ->
  uninterrupted sub.
Proof.
  intros H. apply uninterrupted_app in H as [_ H].
  change (uninterrupted ([Exported level i c] ++ sub)) in H.
  now apply uninterrupted_app in H.
Qed.

Section Loop.

Variable SubE : AudioSegment sample -> list event -> Prop.
Variables (level : nat) (audio : AudioSegment sample) (pc : bool).

Local Abbreviation SubQ :=
  (fun (_ : AudioSegment sample) r sub => unstopped (sample:=sample) r sub).

Lemma loop_run_unstopped total todo ts res (log : list event) :
  loop_run SubQ SubE level audio pc total todo ts res log ->
  kept ts -> uninterrupted log ->
  match res with
  | Some (inl _) => False
  | Some (inr ts') => kept ts'
  | None => True
  end.
Proof.
  induction 1 as [ts|i rest ts|i rest ts|i rest ts sub Hsub
                  |i rest ts sub Hsub
                  |i rest ts sub r res log Hsub Hr Hp Hrun IH
                  |i rest ts sub r res log Hsub Hr Hp Hrun IH];
    intros Hts Hlog; try exact I.
  - exact Hts.
  - discriminate.
  - apply uninterrupted_forwarded in Hlog. now apply Hsub.
  - apply uninterrupted_iteration in Hlog as [_ Hlog].
    apply IH; [|exact Hlog].
    apply Forall_app. split; [exact Hts|]. now constructor.
  - apply uninterrupted_iteration in Hlog as [_ Hlog]. now apply IH.
Qed.

Lemma large_run_unstopped r (log : list event) :
  large_run SubQ SubE level audio pc r log -> unstopped r log.
Proof.
  intros [e|e log' Hrun|r' log' Hrun|ts log' Hrun] Hlog.
  - apply large_error_not_stopped.
  - apply large_error_not_stopped.
  - now apply (loop_run_unstopped _ _ _ _ _ Hrun (Forall_nil _)) in Hlog.
  - apply uninterrupted_app in Hlog as [Hlog _].
    apply join_not_stopped.
    exact (loop_run_unstopped _ _ _ _ _ Hrun (Forall_nil _) Hlog).
Qed.

End Loop.

Hypothesis quiet_service : never_says_stopped env.

(** The result is the stopped message only when a check point found the
    flag set. *)
Lemma baidu_unstopped fuel : forall level a language pc tc,
  ends (transcribe_audio_baidu env patience fuel level a language pc tc)
       (fun r log => unstopped r log) (fun _ => True).
Proof.
  induction fuel as [|fuel IH]; intros level a language pc tc;
    rewrite transcribe_audio_baidu_unfold; unfold baidu_body;
    (destruct (keys_missing env);
     [eapply ends_mono; [apply ends_ret| |intros ? []];
      intros r log [-> _] _; discriminate|]);
    (eapply ends_bind; [apply ends_file_op|intros; exact I
                       |intros _ log1 ->]); simpl;
    destruct (size_limit <? wav_size env a)%N.
  - apply ends_raise. exact I.
  - eapply ends_mono; [apply ends_single_request| |intros ? []].
    intros r log [_ [t ->]] _. apply quiet_service.
  - eapply ends_mono;
      [apply (large_sound sample env patience _ _ (fun _ _ => True)
                level a language pc tc
                (fun a' => IH (S level) a' language pc tc))
      | |intros ? []].
    intros r log Hrun. now apply large_run_unstopped in Hrun.
  - eapply ends_mono; [apply ends_single_request| |intros ? []].
    intros r log [_ [t ->]] _. apply quiet_service.
Qed.

Lemma large_unstopped fuel level audio language pc tc w r w' (log : list event) :
  transcribe_large_audio_baidu env patience fuel level audio language pc tc w
  = Returned r w' log ->
  unstopped r log.
Proof.
  intros Hrun.
  pose proof (large_sound sample env patience _ _ (fun _ _ => True)
                level audio language pc tc
                (fun a' => baidu_unstopped fuel (S level) a' language pc tc) w)
    as H.
  unfold transcribe_large_audio_baidu in Hrun. rewrite Hrun in H.
  now apply large_run_unstopped in H.
Qed.

End Unnoticed.

(** ** The chunks of an audio *)

Section Slices.

Variable A : Type.
Variable L : nat.
Hypothesis L_pos : 0 < L.
Implicit Types (l : list A) (i j n : nat).

Lemma firstn_add n : forall m l,
  firstn (n + m) l = firstn n l ++ firstn m (skipn n l).
Proof.
  induction n as [|n IH]; intros m [|x l]; simpl;
    rewrite ?firstn_nil; try reflexivity.
  now rewrite IH.
Qed.

(** Consecutive windows of [L] put end to end are the part they cover. *)
Lemma windows_concat n : forall start l,
  concat (map (fun i => firstn L (skipn (i * L) l)) (seq start n))
  = firstn (n * L) (skipn (start * L) l).
Proof.
  induction n as [|n IH]; intros start l; [reflexivity|].
  simpl seq. simpl map. simpl concat. rewrite IH.
  change (S n * L) with (L + n * L). rewrite firstn_add.
  rewrite skipn_skipn. reflexivity.
Qed.

Lemma windows_cover l :
  concat (map (fun i => firstn L (skipn (i * L) l)) (seq 0 (length l / L + 1)))
  = l.
Proof.
  rewrite windows_concat. simpl. apply firstn_all2.
  pose proof (Nat.div_mod_eq (length l) L) as Hdiv.
  pose proof (Nat.mod_upper_bound (length l) L) as Hmod. nia.
Qed.

Lemma window_nth l i j :
  j < L -> nth_error (firstn L (skipn (i * L) l)) j = nth_error l (i * L + j).
Proof.
  intros Hj. rewrite nth_error_firstn.
  destruct (Nat.ltb_spec j L) as [_|H]; [|lia]. apply nth_error_skipn.
Qed.

Lemma window_length l i :
  length (firstn L (skipn (i * L) l)) = Nat.min L (length l - i * L).
Proof. now rewrite length_firstn, length_skipn. Qed.

Lemma window_full l i :
  i < length l / L -> length (firstn L (skipn (i * L) l)) = L.
Proof.
  intros Hi. rewrite window_length.
  pose proof (Nat.div_mod_eq (length l) L) as Hdiv. nia.
Qed.

Lemma window_last l :
  length (firstn L (skipn (length l / L * L) l)) = length l mod L.
Proof.
  rewrite window_length.
  pose proof (Nat.div_mod_eq (length l) L) as Hdiv.
  pose proof (Nat.mod_upper_bound (length l) L) as Hmod. nia.
Qed.

Lemma window_beyond l k :
  length l = k * L -> length l / L = k /\ firstn L (skipn (k * L) l) = [].
Proof.
  intros Hlen. split.
  - rewrite Hlen. apply Nat.div_mul. lia.
  - rewrite skipn_all2 by lia. apply firstn_nil.
Qed.

End Slices.

Section Chunks.

Variable sample : Type.
Implicit Types (audio : AudioSegment sample) (i j : nat).

Lemma chunk_length_ms_pos : 0 < chunk_length_ms.
Proof. apply Nat.ltb_lt. vm_compute. reflexivity. Qed.

Lemma chunk_window audio i :
  chunk audio i
  = firstn chunk_length_ms (skipn (i * chunk_length_ms) audio).
Proof.
  unfold chunk, slice. f_equal.
  generalize chunk_length_ms. intros L. nia.
Qed.

End Chunks.

(** ** What is sent for the chunks *)

Section SentChunks.

Variable sample : Type.
Variable env : Env sample.

Local Abbreviation event := (event sample).

Hypothesis keys : keys_missing env = false.

Lemma requests_opening level pc total i :
  requests (opening (sample:=sample) level pc total i) = [].
Proof. unfold opening. now destruct pc. Qed.

(** A call on a chunk within the limit sends the chunk, once. *)
Lemma fitting_chunk_sent level language (a : AudioSegment sample) r
    (sub : list event) :
  (wav_size env a <= size_limit)%N ->
  baidu_run env level language a r sub -> requests sub = [a].
Proof.
  intros Hfit (_ & _ & H). specialize (H Hfit). rewrite keys in H.
  destruct H as [-> _]. reflexivity.
Qed.

Lemma loop_run_requests level audio language pc total todo ts res
    (log : list event) :
  loop_run (baidu_run env (S level) language) baidu_raise level audio pc
           total todo ts res log ->
  Forall (fun i => (wav_size env (chunk audio i) <= size_limit)%N) todo ->
  (exists k, k <= length todo
             /\ requests log = map (chunk audio) (firstn k todo))
  /\ (forall ts', res = Some (inr ts') ->
        requests log = map (chunk audio) todo).
Proof.
  induction 1 as [ts|i rest ts|i rest ts|i rest ts sub Hsub
                  |i rest ts sub Hsub
                  |i rest ts sub r res log Hsub Hr Hp Hrun IH
                  |i rest ts sub r res log Hsub Hr Hp Hrun IH];
    intros Hfit;
    try (apply Forall_cons_iff in Hfit as [Hi Hrest]);
    try (apply (fitting_chunk_sent _ _ _ _ _ Hi) in Hsub);
    try (apply baidu_raise_sub in Hsub; subst sub);
    try (destruct (IH Hrest) as [(k & Hk & IH1) IH2]);
    rewrite ?requests_app, ?requests_opening; simpl;
    rewrite ?requests_app, ?Hsub; simpl.
  - split; [exists 0; now split|reflexivity].
  - split; [exists 0; split; [lia|reflexivity]|discriminate].
  - split; [exists 0; split; [lia|reflexivity]|discriminate].
  - split; [exists 0; split; [lia|reflexivity]|discriminate].
  - split; [exists 1; split; [lia|reflexivity]|discriminate].
  - split; [exists (S k); split; [lia|simpl; now rewrite IH1]|].
    intros ts' Hres. now rewrite (IH2 ts' Hres).
  - split; [exists (S k); split; [lia|simpl; now rewrite IH1]|].
    intros ts' Hres. now rewrite (IH2 ts' Hres).
Qed.

Lemma chunks_cover (audio : AudioSegment sample) :
  concat (map (chunk audio) (seq 0 (chunks_number audio))) = audio.
Proof.
  pose proof chunk_length_ms_pos as Hpos.
  unfold chunks_number.
  rewrite (map_ext _ (fun i => firstn chunk_length_ms
                                  (skipn (i * chunk_length_ms) audio)))
    by apply chunk_window.
  now apply windows_cover.
Qed.

End SentChunks.

(** * The chunked transcription as the specification describes it *)

Section LoopClaims.

Variable sample : Type.
Variable env : Env sample.
Variable patience : nat.

Local Abbreviation event := (event sample).

Lemma baidu_run_flat level language (a : AudioSegment sample) r (sub : list event) :
  (wav_size env a <= size_limit)%N ->
  baidu_run env level language a r sub ->
  sub = [] \/ sub = [Request a (dev_pid_of language)].
Proof.
  intros Hfit (_ & _ & H). specialize (H Hfit).
  destruct (keys_missing env); [left|right]; apply H.
Qed.

Lemma baidu_run_asks level language (a : AudioSegment sample) r (sub : list event) :
  keys_missing env = false ->
  (wav_size env a <= size_limit)%N ->
  baidu_run env level language a r sub ->
  In (Request a (dev_pid_of language)) sub.
Proof.
  intros Hkeys Hfit (_ & _ & H). specialize (H Hfit).
  rewrite Hkeys in H. destruct H as [-> _]. now left.
Qed.

Lemma uninterrupted_not_in (log : list event) l :
  uninterrupted log -> ~ In (Interrupted l) log.
Proof.
  unfold uninterrupted. rewrite forallb_forall. intros H Hin.
  specialize (H _ Hin). discriminate.
Qed.

Lemma stop_ok_interrupted r (log : list event) l :
  stop_ok r log -> In (Interrupted l) log ->
  r = stopped_msg
  /\ exists log0, log = log0 ++ [Interrupted l] /\ uninterrupted log0.
Proof.
  intros [Hlog|(-> & log0 & l' & -> & Hlog0)] Hin.
  - now apply uninterrupted_not_in in Hin.
  - split; [reflexivity|]. exists log0.
    apply in_app_or in Hin as [Hin|[Hin|[]]].
    + now apply uninterrupted_not_in in Hin.
    + injection Hin as ->. now split.
Qed.

Lemma returned_large_run fuel level audio language pc tc w r w' (log : list event) :
  transcribe_large_audio_baidu env patience fuel level audio language pc tc w
  = Returned r w' log ->
  large_run (baidu_run env (S level) language) baidu_raise level audio pc r log.
Proof.
  intros Hrun.
  pose proof (large_runs sample env patience fuel level audio language pc tc w) as H.
  now rewrite Hrun in H.
Qed.

(** What the loop of a chunked run has logged at the level of the run. *)
Lemma loop_run_reads level audio language pc res (log : list event) :
  loop_run (baidu_run env (S level) language) baidu_raise level audio pc
           (chunks_number audio) (seq 0 (chunks_number audio)) [] res log ->
  (exists k, k <= chunks_number audio /\ processed_at level log = seq 0 k)
  /\ (exists k, k <= chunks_number audio
                /\ exported_at level log = map (export_of audio) (seq 0 k))
  /\ ~ In (Completed level) log
  /\ forall ts, res = Some (inr ts) ->
       processed_at level log = seq 0 (chunks_number audio)
       /\ exported_at level log
          = map (export_of audio) (seq 0 (chunks_number audio))
       /\ ts = appended_at level log.
Proof.
  intros Hrun.
  destruct (loop_run_processed sample _ _ level audio pc
              (baidu_run_sub sample env level language)
              (baidu_raise_sub sample) _ _ _ _ _ Hrun) as [[k Hk] Hall].
  destruct (loop_run_exported sample _ _ level audio pc
              (baidu_run_sub sample env level language)
              (baidu_raise_sub sample) _ _ _ _ _ Hrun) as [[k' Hk'] Hall'].
  pose proof (loop_run_appended sample _ _ level audio pc
              (baidu_run_sub sample env level language)
              _ _ _ _ _ Hrun) as Happ.
  pose proof (loop_run_not_completed sample _ _ level audio pc
              (baidu_run_sub sample env level language)
              (baidu_raise_sub sample) _ _ _ _ _ Hrun) as Hnot.
  rewrite firstn_seq in Hk, Hk'.
  split; [exists (Nat.min k (chunks_number audio)); split; [lia|exact Hk]|].
  split; [exists (Nat.min k' (chunks_number audio)); split; [lia|exact Hk']|].
  split; [exact Hnot|].
  intros ts Hres. split; [now apply (Hall ts)|]. split; [now apply (Hall' ts)|].
  now apply Happ.
Qed.

(** What a chunked run that ended has logged at its own level. *)
Lemma large_run_reads level audio language pc r (log : list event) :
  large_run (baidu_run env (S level) language) baidu_raise level audio pc r log ->
  (exists k, k <= chunks_number audio /\ processed_at level log = seq 0 k)
  /\ (exists k, k <= chunks_number audio
                /\ exported_at level log = map (export_of audio) (seq 0 k))
  /\ (In (Completed level) log ->
      processed_at level log = seq 0 (chunks_number audio)
      /\ exported_at level log
         = map (export_of audio) (seq 0 (chunks_number audio))
      /\ r = join (appended_at level log)).
Proof.
  intros [e|e log' Hrun|r' log' Hrun|ts log' Hrun].
  - simpl. split; [exists 0; split; [lia|reflexivity]|].
    split; [exists 0; split; [lia|reflexivity]|].
    intros [Hin|[]]. discriminate.
  - apply loop_run_reads in Hrun as (Hp & He & Hnot & _).
    rewrite processed_at_app, exported_at_app. simpl. rewrite !app_nil_r.
    split; [exact Hp|]. split; [exact He|].
    intros Hin. apply in_app_or in Hin as [Hin|[Hin|[]]];
      [contradiction|discriminate].
  - apply loop_run_reads in Hrun as (Hp & He & Hnot & _).
    split; [exact Hp|]. split; [exact He|]. intros Hin. contradiction.
  - apply loop_run_reads in Hrun as (_ & _ & _ & Hall).
    destruct (Hall ts eq_refl) as (Hp & He & Ha).
    assert (Hfinal : forall lvl,
               processed_at lvl ((if pc then [Progress (sample:=sample) (chunks_number audio) (chunks_number audio)] else []) ++ [Completed level]) = []
               /\ exported_at lvl ((if pc then [Progress (sample:=sample) (chunks_number audio) (chunks_number audio)] else []) ++ [Completed level]) = []
               /\ appended_at lvl ((if pc then [Progress (sample:=sample) (chunks_number audio) (chunks_number audio)] else []) ++ [Completed level]) = [])
      by (intros lvl; destruct pc; repeat split).
    destruct (Hfinal level) as (F1 & F2 & F3).
    rewrite processed_at_app, exported_at_app, appended_at_app, F1, F2, F3,
      !app_nil_r, Hp, He, <- Ha.
    split; [exists (chunks_number audio); split; [lia|reflexivity]|].
    split; [exists (chunks_number audio); split; [lia|reflexivity]|].
    intros _. split; [reflexivity|]. split; reflexivity.
Qed.

(** With chunks sent as single requests, the progress callback has been
    called for the indices taken up, and once more at the end. *)
Lemma large_run_progress level audio language r (log : list event) :
  chunks_fit env audio ->
  large_run (baidu_run env (S level) language) baidu_raise level audio true r log ->
  exists k, k <= chunks_number audio + 1
    /\ progress_calls log
       = map (fun i => (i, chunks_number audio)) (seq 0 k)
    /\ (In (Completed level) log -> k = chunks_number audio + 1).
Proof.
  intros Hfit Hlarge.
  assert (Hloop : forall res log',
    loop_run (baidu_run env (S level) language) baidu_raise level audio true
             (chunks_number audio) (seq 0 (chunks_number audio)) [] res log' ->
    exists k, k <= chunks_number audio
      /\ progress_calls log' = map (fun i => (i, chunks_number audio)) (seq 0 k)
      /\ ~ In (Completed level) log'
      /\ forall ts, res = Some (inr ts) -> k = chunks_number audio).
  { intros res log' Hrun.
    pose proof (loop_run_progress sample _ _ level audio true
                  (fun i => (wav_size env (chunk audio i) <= size_limit)%N)
                  (dev_pid_of language)
                  (fun i r sub Hi H => baidu_run_flat (S level) language _ r sub Hi H)
                  (baidu_raise_sub sample) _ _ _ _ _ Hrun) as Hprog.
    simpl in Hprog. rewrite Hprog.
    2:{ apply Forall_forall. intros i Hi. apply Hfit. apply in_seq in Hi. lia. }
    apply loop_run_reads in Hrun as ((k & Hk & Hp) & _ & Hnot & Hall).
    exists k. rewrite Hp. repeat split; [exact Hk|exact Hnot|].
    intros ts Hres. destruct (Hall ts Hres) as (Hp' & _).
    rewrite Hp in Hp'. apply (f_equal (@length nat)) in Hp'.
    now rewrite !length_seq in Hp'. }
  destruct Hlarge as [e|e log' Hrun|r' log' Hrun|ts log' Hrun].
  - exists 0. repeat split; [lia|]. intros [Hin|[]]. discriminate.
  - destruct (Hloop _ _ Hrun) as (k & Hk & Hp & Hnot & _).
    exists k. rewrite progress_calls_app, Hp. simpl. rewrite app_nil_r.
    repeat split; [lia|].
    intros Hin. apply in_app_or in Hin as [Hin|[Hin|[]]];
      [contradiction|discriminate].
  - destruct (Hloop _ _ Hrun) as (k & Hk & Hp & Hnot & _).
    exists k. repeat split; [lia|exact Hp|]. intros Hin. contradiction.
  - destruct (Hloop _ _ Hrun) as (k & Hk & Hp & Hnot & Hall).
    rewrite (Hall ts eq_refl) in Hp.
    exists (chunks_number audio + 1).
    rewrite progress_calls_app, Hp. simpl.
    rewrite Nat.add_1_r, seq_S, map_app. repeat split. lia.
Qed.

Section LastChunk.

Hypothesis quiet_service : never_says_stopped env.

Lemma last_in {A} (l : list A) d : l <> [] -> In (last l d) l.
Proof.
  induction l as [|x [|y l] IH]; intros H; [contradiction|now left|].
  right. apply IH. discriminate.
Qed.

Lemma taken_up_in_opening level pc total i j :
  In (Processing (sample:=sample) level j total) (opening level pc total i) ->
  j = i.
Proof.
  unfold opening. intros [H|H]; [now injection H|].
  destruct pc; simpl in H; [destruct H as [H|[]]; discriminate|destruct H].
Qed.

Lemma not_taken_up_deeper level j total (sub : list event) :
  Forall (from_level (S level)) sub -> ~ In (Processing level j total) sub.
Proof.
  intros H Hin. rewrite Forall_forall in H. specialize (H _ Hin).
  simpl in H. lia.
Qed.

(** A chunk within the limit is settled by a request or by the missing-key
    text: its result is not the stopped message. *)
Lemma fitting_chunk_unstopped level language (a : AudioSegment sample)
    (sub : list event) :
  (wav_size env a <= size_limit)%N ->
  ~ baidu_run env level language a stopped_msg sub.
Proof.
  intros Hfit (_ & _ & H). specialize (H Hfit).
  destruct (keys_missing env).
  - destruct H as [H _]. discriminate.
  - destruct H as [_ [t H]]. symmetry in H. now apply quiet_service in H.
Qed.

(** Once the loop has taken up the last of its indices, a chunk within the
    limit, it does not return from inside. *)
Lemma loop_run_last_taken level audio language pc total todo ts res
    (log : list event) :
  loop_run (baidu_run env (S level) language) baidu_raise level audio pc
           total todo ts res log ->
  NoDup todo ->
  forall j d, In (Processing level j total) log ->
    last todo d = j ->
    (wav_size env (chunk audio j) <= size_limit)%N ->
    forall r, res <> Some (inl r).
Proof.
  induction 1 as [ts|i rest ts|i rest ts|i rest ts sub Hsub
                  |i rest ts sub Hsub
                  |i rest ts sub r res log Hsub Hr Hp Hrun IH
                  |i rest ts sub r res log Hsub Hr Hp Hrun IH];
    intros Hnd j d Hin Hlast Hfit r'; try discriminate.
  - destruct Hin as [Hin|[]]. discriminate.
  - exfalso. apply in_app_or in Hin as [Hin|[Hin|Hin]]; [|discriminate|].
    + apply taken_up_in_opening in Hin. subst j.
      now apply (fitting_chunk_unstopped _ _ _ _ Hfit) in Hsub.
    + apply baidu_run_sub in Hsub as [Hsub _].
      now apply (not_taken_up_deeper level j total) in Hsub.
  - apply in_app_or in Hin as [Hin|[Hin|Hin]]; [|discriminate|].
    + apply taken_up_in_opening in Hin. subst j.
      destruct rest as [|x rest].
      * inversion Hrun. discriminate.
      * exfalso. apply NoDup_cons_iff in Hnd as [Hnot _]. apply Hnot.
        rewrite <- Hlast at 1.
        change (last (i :: x :: rest) d) with (last (x :: rest) d).
        apply last_in. discriminate.
    + apply in_app_or in Hin as [Hin|[Hin|Hin]]; [|discriminate|].
      * exfalso. apply baidu_run_sub in Hsub as [Hsub _].
        now apply (not_taken_up_deeper level j total) in Hsub.
      * destruct rest as [|x rest]; [inversion Hrun; subst; destruct Hin|].
        apply NoDup_cons_iff in Hnd as [_ Hnd].
        now apply (IH Hnd j d Hin).
  - apply in_app_or in Hin as [Hin|[Hin|Hin]]; [|discriminate|].
    + apply taken_up_in_opening in Hin. subst j.
      destruct rest as [|x rest].
      * inversion Hrun. discriminate.
      * exfalso. apply NoDup_cons_iff in Hnd as [Hnot _]. apply Hnot.
        rewrite <- Hlast at 1.
        change (last (i :: x :: rest) d) with (last (x :: rest) d).
        apply last_in. discriminate.
    + apply in_app_or in Hin as [Hin|[Hin|Hin]]; [|discriminate|].
      * exfalso. apply baidu_run_sub in Hsub as [Hsub _].
        now apply (not_taken_up_deeper level j total) in Hsub.
      * destruct rest as [|x rest]; [inversion Hrun; subst; destruct Hin|].
        apply NoDup_cons_iff in Hnd as [_ Hnd].
        now apply (IH Hnd j d Hin).
Qed.

Lemma last_seq n : last (seq 0 (S n)) 0 = n.
Proof. rewrite seq_S. apply last_last. Qed.

(** A chunked run that has taken its last chunk up, a chunk within the
    limit, makes no further check: it completes, or aborts on a failure. *)
Lemma large_last_taken fuel level audio language pc tc w r w' (log : list event) :
  transcribe_large_audio_baidu env patience fuel level audio language pc tc w
  = Returned r w' log ->
  In (Processing level (chunks_number audio - 1) (chunks_number audio)) log ->
  (wav_size env (chunk audio (chunks_number audio - 1)) <= size_limit)%N ->
  uninterrupted log
  /\ (In (Completed level) log \/ exists e, In (Aborted level e) log).
Proof.
  intros Hrun Hin Hfit. apply returned_large_run in Hrun.
  assert (Hlast : last (seq 0 (chunks_number audio)) 0 = chunks_number audio - 1).
  { unfold chunks_number. rewrite Nat.add_1_r, last_seq. lia. }
  assert (Hleft : forall res log',
    loop_run (baidu_run env (S level) language) baidu_raise level audio pc
             (chunks_number audio) (seq 0 (chunks_number audio)) [] res log' ->
    In (Processing level (chunks_number audio - 1) (chunks_number audio)) log' ->
    forall r', res <> Some (inl r')).
  { intros res log' H Hin'.
    exact (loop_run_last_taken _ _ _ _ _ _ _ _ _ H (seq_NoDup _ _) _ 0
             Hin' Hlast Hfit). }
  destruct Hrun as [e|e log' Hloop|r' log' Hloop|ts log' Hloop].
  - destruct Hin as [Hin|[]]. discriminate.
  - apply in_app_or in Hin as [Hin|[Hin|[]]]; [|discriminate].
    pose proof (loop_run_stop sample _ _ level audio pc
                  (baidu_run_sub sample env level language)
                  (baidu_raise_sub sample) _ _ _ _ _ Hloop) as Hlog.
    simpl in Hlog. split.
    + apply uninterrupted_app. now split.
    + right. exists e. apply in_or_app. right. now left.
  - exfalso. apply (Hleft _ _ Hloop) with (r' := r'); [|reflexivity].
    exact Hin.
  - pose proof (loop_run_stop sample _ _ level audio pc
                  (baidu_run_sub sample env level language)
                  (baidu_raise_sub sample) _ _ _ _ _ Hloop) as Hlog.
    simpl in Hlog. split.
    + apply uninterrupted_app. split; [exact Hlog|]. now destruct pc.
    + left. apply in_or_app. right. apply in_or_app. right. now left.
Qed.

End LastChunk.


(** C4 (as amended): when a progress callback is supplied and every chunk
    is within the limit of a single request, a run that ended has called
    the callback with (0, N), (1, N), ... in this order, [k] times for
    some [k <= N + 1], every call with [current <= total = N]; a run that
    completed has called it exactly N + 1 times, the last call being
    (N, N). *)
Theorem progress_calls_of_run fuel level audio language tc w r w' log
    (Hfit : chunks_fit env audio)
    (Hrun : transcribe_large_audio_baidu env patience fuel level audio
              language true tc w = Returned r w' log) :
  (exists k, k <= chunks_number audio + 1
      /\ progress_calls log
         = map (fun i => (i, chunks_number audio)) (seq 0 k))
  /\ Forall (fun c => 0 <= fst c <= snd c /\ snd c = chunks_number audio)
            (progress_calls log)
  /\ (In (Completed level) log ->
      progress_calls log
      = map (fun i => (i, chunks_number audio))
            (seq 0 (chunks_number audio + 1))
      /\ length (progress_calls log) = chunks_number audio + 1
      /\ map fst (progress_calls log) = seq 0 (chunks_number audio + 1)).
Proof.
  apply returned_large_run in Hrun.
  destruct (large_run_progress level audio language r log Hfit Hrun)
    as (k & Hk & Hcalls & Hdone).
  split; [exists k; split; [exact Hk|exact Hcalls]|]. split.
  - rewrite Hcalls. apply Forall_forall. intros c Hc.
    apply in_map_iff in Hc as (i & <- & Hi). apply in_seq in Hi. simpl. lia.
  - intros Hin. rewrite Hcalls, (Hdone Hin). split; [reflexivity|].
    rewrite length_map, length_seq, map_map. split; [reflexivity|].
    simpl. apply map_id.
Qed.

(** What a chunked run that ended has done with its chunks. *)
Lemma large_run_stages level audio language pc r (log : list event) :
  large_run (baidu_run env (S level) language) baidu_raise level audio pc r log ->
  exists k k' k'',
    processed_at level log = seq 0 k
    /\ exported_at level log = map (export_of audio) (seq 0 k')
    /\ judged_at level log = seq 0 k''
    /\ k'' <= k' /\ k' <= k /\ k <= chunks_number audio /\ k <= k'' + 1
    /\ (In (Completed level) log -> k'' = chunks_number audio).
Proof.
  assert (Hloop : forall res log',
    loop_run (baidu_run env (S level) language) baidu_raise level audio pc
             (chunks_number audio) (seq 0 (chunks_number audio)) [] res log' ->
    exists k k' k'',
      processed_at level log' = seq 0 k
      /\ exported_at level log' = map (export_of audio) (seq 0 k')
      /\ judged_at level log' = seq 0 k''
      /\ k'' <= k' /\ k' <= k /\ k <= chunks_number audio /\ k <= k'' + 1
      /\ (forall ts, res = Some (inr ts) -> k'' = chunks_number audio)).
  { intros res log' Hrun.
    destruct (loop_run_stages sample _ _ level audio pc
                (baidu_run_sub sample env level language)
                (baidu_raise_sub sample) _ _ _ _ _ Hrun)
      as (k & k' & k'' & H1 & H2 & H3 & H4 & H5 & H6 & H7 & H8).
    rewrite length_seq in H6, H8. rewrite firstn_seq in H1, H2, H3.
    rewrite Nat.min_l in H1, H2, H3 by lia.
    exists k, k', k''. repeat split; assumption. }
  intros [e|e log' Hrun|r' log' Hrun|ts log' Hrun].
  - exists 0, 0, 0. repeat split; try lia. intros [H|[]]. discriminate.
  - pose proof (loop_run_not_completed sample _ _ level audio pc
                  (baidu_run_sub sample env level language)
                  (baidu_raise_sub sample) _ _ _ _ _ Hrun) as Hnot.
    destruct (Hloop _ _ Hrun)
      as (k & k' & k'' & H1 & H2 & H3 & H4 & H5 & H6 & H7 & _).
    exists k, k', k''.
    rewrite processed_at_app, exported_at_app, judged_at_app. simpl.
    rewrite !app_nil_r. repeat split; try assumption.
    intros Hin. apply in_app_or in Hin as [Hin|[Hin|[]]];
      [contradiction|discriminate].
  - pose proof (loop_run_not_completed sample _ _ level audio pc
                  (baidu_run_sub sample env level language)
                  (baidu_raise_sub sample) _ _ _ _ _ Hrun) as Hnot.
    destruct (Hloop _ _ Hrun)
      as (k & k' & k'' & H1 & H2 & H3 & H4 & H5 & H6 & H7 & _).
    exists k, k', k''. repeat split; try assumption.
    intros Hin. contradiction.
  - destruct (Hloop _ _ Hrun)
      as (k & k' & k'' & H1 & H2 & H3 & H4 & H5 & H6 & H7 & H8).
    exists k, k', k''.
    rewrite processed_at_app, exported_at_app, judged_at_app.
    assert (Hfinal :
      processed_at level
        ((if pc then [Progress (sample:=sample) (chunks_number audio)
                        (chunks_number audio)] else []) ++ [Completed level]) = []
      /\ exported_at level
           ((if pc then [Progress (sample:=sample) (chunks_number audio)
                           (chunks_number audio)] else []) ++ [Completed level]) = []
      /\ judged_at level
           ((if pc then [Progress (sample:=sample) (chunks_number audio)
                           (chunks_number audio)] else []) ++ [Completed level]) = [])
      by (destruct pc; repeat split).
    destruct Hfinal as (F1 & F2 & F3). rewrite F1, F2, F3, !app_nil_r.
    repeat split; try assumption. intros _. exact (H8 ts eq_refl).
Qed.

(** C7 (as amended): the loop carries the chunks through its three stages
    in increasing order of their index, each index once, whatever the
    controlling thread calls.  In every run that ended, the indices taken up
    (line 252) are 0, ..., k-1, the chunks exported (line 269) are those of
    0, ..., k'-1, each under its index with the slice of the audio it names,
    and the results kept or dropped (lines 280-284) are those of
    0, ..., k''-1, where [k'' <= k' <= k <= N] and [k <= k'' + 1]: no index
    is skipped or repeated and at most the last one taken up is left
    unfinished; all three are N when the run completed.  When no check finds
    a stop, every pause is followed by a resume within the polls allowed, no
    file operation fails, every chunk is within the limit of a request and
    no answer reads as the stopped message, the run returns and completes:
    each of 0, ..., N-1 has been taken up, exported and settled once, in
    this order, and with the keys configured each chunk has been sent in one
    request, in this order. *)
Theorem chunks_processed_once_in_order fuel level audio language pc tc w :
  (forall r w' log,
      transcribe_large_audio_baidu env patience fuel level audio language
                                   pc tc w = Returned r w' log ->
      exists k k' k'',
        processed_at level log = seq 0 k
        /\ exported_at level log = map (export_of audio) (seq 0 k')
        /\ judged_at level log = seq 0 k''
        /\ k'' <= k' /\ k' <= k /\ k <= chunks_number audio /\ k <= k'' + 1
        /\ NoDup (processed_at level log)
        /\ (In (Completed level) log ->
            k = chunks_number audio /\ k' = chunks_number audio
            /\ k'' = chunks_number audio))
  /\ (chunks_fit env audio -> never_says_stopped env ->
      undisturbed env patience w ->
      exists r w' log,
        transcribe_large_audio_baidu env patience fuel level audio language
                                     pc tc w = Returned r w' log
        /\ In (Completed level) log
        /\ processed_at level log = seq 0 (chunks_number audio)
        /\ exported_at level log
           = map (export_of audio) (seq 0 (chunks_number audio))
        /\ judged_at level log = seq 0 (chunks_number audio)
        /\ (keys_missing env = false ->
            requests log = map (chunk audio) (seq 0 (chunks_number audio)))).
Proof.
  assert (Hany : forall r w' log,
    transcribe_large_audio_baidu env patience fuel level audio language
                                 pc tc w = Returned r w' log ->
    exists k k' k'',
      processed_at level log = seq 0 k
      /\ exported_at level log = map (export_of audio) (seq 0 k')
      /\ judged_at level log = seq 0 k''
      /\ k'' <= k' /\ k' <= k /\ k <= chunks_number audio /\ k <= k'' + 1
      /\ NoDup (processed_at level log)
      /\ (In (Completed level) log ->
          k = chunks_number audio /\ k' = chunks_number audio
          /\ k'' = chunks_number audio)).
  { intros r w' log Hrun. apply returned_large_run in Hrun.
    destruct (large_run_stages level audio language pc r log Hrun)
      as (k & k' & k'' & H1 & H2 & H3 & H4 & H5 & H6 & H7 & H8).
    exists k, k', k''. rewrite H1.
    repeat split; try assumption; try apply seq_NoDup;
      specialize (H8 H); lia. }
  split; [exact Hany|].
  intros Hfit Hquiet Hw.
  destruct (large_completes sample env patience Hquiet fuel level audio
              language pc tc w Hfit Hw) as (r & w' & log & Hrun & Hin).
  exists r, w', log. split; [exact Hrun|]. split; [exact Hin|].
  destruct (Hany r w' log Hrun)
    as (k & k' & k'' & H1 & H2 & H3 & _ & _ & _ & _ & _ & H8).
  destruct (H8 Hin) as (-> & -> & ->).
  split; [exact H1|]. split; [exact H2|]. split; [exact H3|].
  intros Hkeys. apply returned_large_run in Hrun.
  destruct (large_run_completed sample env level audio language pc r log Hrun Hin)
    as (ts & log' & Hloop & _ & ->).
  assert (Hall : Forall (fun i => (wav_size env (chunk audio i) <= size_limit)%N)
                        (seq 0 (chunks_number audio))).
  { apply Forall_forall. intros i Hi. apply Hfit. apply in_seq in Hi. lia. }
  destruct (loop_run_requests sample env Hkeys _ _ _ _ _ _ _ _ _ Hloop Hall)
    as [_ Hreq].
  rewrite requests_app, (Hreq ts eq_refl).
  destruct pc; simpl; now rewrite app_nil_r.
Qed.

End LoopClaims.

Section PathAndChunks.

Variable sample : Type.
Variable env : Env sample.
Variable patience : nat.

Lemma bind_file_op {A} (k : unit -> M sample A) w :
  io_error env (now w) = None ->
  bind (file_op env) k w = k tt (tick env w).
Proof.
  intros H. unfold bind, file_op. rewrite H.
  destruct (k tt (tick env w)); reflexivity.
Qed.

(** C5 (as amended): with the three keys configured and the file read,
    [transcribe_audio_baidu] takes the chunked path when the size of the
    file exceeds 10*1024*1024 bytes and sends the file as one request
    otherwise.  The chunked path splits the audio into
    [len(audio) // 60000 + 1] chunks, chunk [i] being the milliseconds of
    the audio from [i * 60000] on, up to [(i + 1) * 60000] and to the end
    of the audio: every chunk but the last has 60000 ms, the last one
    [len(audio) mod 60000].  It exports them in increasing order of their
    index: chunks 0, ..., k-1 in a run that ended, all of them in a run
    that completed. *)
Theorem chunked_path_and_chunks fuel level audio language pc tc w
    (Hkeys : keys_missing env = false)
    (Hread : io_error env (now w) = None) :
  ((size_limit < wav_size env audio)%N ->
     transcribe_audio_baidu env patience (S fuel) level audio language pc tc w
     = transcribe_large_audio_baidu env patience fuel level audio language
                                    pc tc (tick env w))
  /\ ((wav_size env audio <= size_limit)%N ->
     transcribe_audio_baidu env patience fuel level audio language pc tc w
     = Returned (parse_response (asr env (S (now w)) audio (dev_pid_of language)))
                (ticks env 2 w) [Request audio (dev_pid_of language)])
  /\ size_limit = (10 * 1024 * 1024)%N
  /\ chunk_length_ms = 60 * 1000
  /\ chunks_number audio = length audio / chunk_length_ms + 1
  /\ (forall i, chunk audio i
                = firstn chunk_length_ms (skipn (i * chunk_length_ms) audio))
  /\ (forall i j, j < chunk_length_ms ->
        nth_error (chunk audio i) j
        = nth_error audio (i * chunk_length_ms + j))
  /\ (forall i, i + 1 < chunks_number audio ->
        length (chunk audio i) = chunk_length_ms)
  /\ length (chunk audio (chunks_number audio - 1))
     = length audio mod chunk_length_ms
  /\ (forall r w' log,
        transcribe_large_audio_baidu env patience fuel level audio language
                                     pc tc w = Returned r w' log ->
        exists k, k <= chunks_number audio
          /\ exported_at level log = map (export_of audio) (seq 0 k)
          /\ (In (Completed level) log -> k = chunks_number audio)).
Proof.
  pose proof chunk_length_ms_pos as Hpos.
  split.
  { intros Hbig. rewrite transcribe_audio_baidu_unfold. unfold baidu_body.
    rewrite Hkeys, bind_file_op by exact Hread.
    apply N.ltb_lt in Hbig. now rewrite Hbig. }
  split.
  { intros Hfit. rewrite transcribe_audio_baidu_unfold. unfold baidu_body.
    rewrite Hkeys, bind_file_op by exact Hread.
    destruct (N.ltb_spec size_limit (wav_size env audio)); [lia|].
    reflexivity. }
  split; [reflexivity|]. split; [reflexivity|]. split; [reflexivity|].
  split; [apply chunk_window|].
  split.
  { intros i j Hj. rewrite chunk_window. now apply window_nth. }
  split.
  { intros i Hi. rewrite chunk_window. apply window_full; [exact Hpos|].
    unfold chunks_number in Hi. lia. }
  split.
  { rewrite chunk_window. unfold chunks_number.
    replace (length audio / chunk_length_ms + 1 - 1)
      with (length audio / chunk_length_ms) by lia.
    now apply window_last. }
  intros r w' log Hrun. apply returned_large_run in Hrun.
  apply large_run_reads in Hrun as (_ & (k & Hk & He) & Hdone).
  exists k. repeat split; [exact Hk|exact He|].
  intros Hin. destruct (Hdone Hin) as (_ & Hall & _).
  rewrite He in Hall. apply (f_equal (@length _)) in Hall.
  now rewrite !length_map, !length_seq in Hall.
Qed.

(** C10 (as amended): the chunks of an audio put end to end are the audio,
    each millisecond in one chunk, at the place the slice bounds say.  When
    the duration is [k * 60000] ms, [len(audio) // 60000 + 1] counts [k + 1]
    chunks and the last one is empty.  A run that completed has exported it
    like the others, and has sent it to the recognition service when the
    keys are configured and its file is within the limit; and a run that
    nothing stops or fails (no check finds a stop, every pause is followed by
    a resume within the polls allowed, no file operation fails, every chunk
    is within the limit, no answer reads as the stopped message) does return
    and complete, the empty chunk exported and, with the keys configured,
    sent. *)
Theorem chunks_partition_with_empty_last (audio : AudioSegment sample) :
  concat (map (chunk audio) (seq 0 (chunks_number audio))) = audio
  /\ (forall i j, j < chunk_length_ms ->
        nth_error (chunk audio i) j
        = nth_error audio (i * chunk_length_ms + j))
  /\ (forall i, length (chunk audio i) <= chunk_length_ms)
  /\ (forall k, length audio = k * chunk_length_ms ->
        chunks_number audio = k + 1
        /\ chunk audio k = []
        /\ (forall fuel level language pc tc w r w' log,
             transcribe_large_audio_baidu env patience fuel level audio
               language pc tc w = Returned r w' log ->
             In (Completed level) log ->
             In (Exported level k []) log
             /\ (keys_missing env = false ->
                 (wav_size env [] <= size_limit)%N ->
                 In (Request [] (dev_pid_of language)) log))
        /\ (forall fuel level language pc tc w,
             chunks_fit env audio -> never_says_stopped env ->
             undisturbed env patience w ->
             exists r w' log,
               transcribe_large_audio_baidu env patience fuel level audio
                 language pc tc w = Returned r w' log
               /\ In (Completed level) log
               /\ In (Exported level k []) log
               /\ (keys_missing env = false ->
                   In (Request [] (dev_pid_of language)) log))).
Proof.
  pose proof chunk_length_ms_pos as Hpos.
  split.
  { unfold chunks_number.
    rewrite (map_ext _ (fun i => firstn chunk_length_ms
                                    (skipn (i * chunk_length_ms) audio)))
      by apply chunk_window.
    now apply windows_cover. }
  split.
  { intros i j Hj. rewrite chunk_window. now apply window_nth. }
  split.
  { intros i. rewrite chunk_window, window_length. lia. }
  intros k Hlen.
  destruct (window_beyond _ chunk_length_ms Hpos audio k Hlen) as [Hdiv Hlast].
  assert (HN : chunks_number audio = k + 1)
    by (unfold chunks_number; now rewrite Hdiv).
  assert (Hk : chunk audio k = []) by now rewrite chunk_window.
  split; [exact HN|]. split; [exact Hk|].
  assert (Hdone : forall fuel level language pc tc w r w' log,
    transcribe_large_audio_baidu env patience fuel level audio
      language pc tc w = Returned r w' log ->
    In (Completed level) log ->
    In (Exported level k []) log
    /\ (keys_missing env = false ->
        (wav_size env [] <= size_limit)%N ->
        In (Request [] (dev_pid_of language)) log));
    [|split; [exact Hdone|];
      intros fuel level language pc tc w Hfit Hquiet Hw;
      destruct (large_completes sample env patience Hquiet fuel level audio
                  language pc tc w Hfit Hw) as (r & w' & log & Hrun & Hin);
      destruct (Hdone fuel level language pc tc w r w' log Hrun Hin)
        as [Hexp Hreq];
      exists r, w', log; repeat split; try assumption;
      intros Hkeys; apply (Hreq Hkeys);
      rewrite <- Hk; apply Hfit; lia].
  intros fuel level language pc tc w r w' log Hrun Hin.
  apply returned_large_run in Hrun.
  destruct (large_run_completed sample env level audio language pc r log Hrun Hin)
    as (ts & log' & Hloop & _ & ->).
  assert (Hkin : In k (seq 0 (chunks_number audio)))
    by (apply in_seq; lia).
  split.
  - apply in_or_app. left.
    destruct (loop_run_submitted sample _ _ level audio pc
                (fun _ => False) None
                (fun i r sub (H : False) _ => match H with end)
                _ _ _ _ _ Hloop ts eq_refl k Hkin) as [H _].
    now rewrite Hk in H.
  - intros Hkeys Hfit. apply in_or_app. left.
    destruct (loop_run_submitted sample _ _ level audio pc
                (fun i => (wav_size env (chunk audio i) <= size_limit)%N)
                (dev_pid_of language)
                (fun i r sub Hi H =>
                   baidu_run_asks sample env (S level) language _ r sub Hkeys Hi H)
                _ _ _ _ _ Hloop ts eq_refl k Hkin) as [_ H].
    rewrite Hk in H. now apply H.
Qed.

End PathAndChunks.

(** * Runs *)

Import Examples.

(** ** Environments in which nothing disturbs a run *)

Section Calm.

Variable env : Env unit.
Variable patience : nat.

Lemma perform_all_keeps_running (cs : list call) : forall self,
  existsb is_stop cs = false -> _stop_requested self = false ->
  _stop_requested (perform_all self cs) = false.
Proof.
  unfold perform_all.
  induction cs as [|c cs IH]; simpl; intros self Hcs Hs; [exact Hs|].
  apply orb_false_iff in Hcs as [Hc Hcs].
  apply IH; [exact Hcs|]. destruct c; simpl in *; congruence.
Qed.

Hypothesis no_stop : forall t, existsb is_stop (ui env t) = false.

Lemma never_stopped_without_stop k : forall w,
  _stop_requested (controller w) = false ->
  _stop_requested (peek env (ticks env k w)) = false.
Proof.
  induction k as [|k IH]; intros w Hw.
  - unfold peek. simpl. now apply perform_all_keeps_running.
  - rewrite <- ticks_tick. apply IH. simpl. unfold peek.
    now apply perform_all_keeps_running.
Qed.

(** Once the controlling thread has made its last call, the controller
    stays as it is. *)
Lemma quiet_from T :
  (forall t, T <= t -> ui env t = []) ->
  forall n w, T <= now w ->
    controller (ticks env n w) = controller w
    /\ peek env (ticks env n w) = controller w.
Proof.
  intros Hq. induction n as [|n IH]; intros w Hw.
  - split; [reflexivity|]. apply peek_quiet. now apply Hq.
  - rewrite <- ticks_tick.
    destruct (IH (tick env w)) as [H1 H2]; [simpl; lia|].
    rewrite H1, H2. simpl. split; apply peek_quiet; now apply Hq.
Qed.

End Calm.

Lemma calm_undisturbed patience w :
  0 < patience ->
  controller w = __init__ ->
  undisturbed calm patience w.
Proof.
  intros Hp Hw.
  assert (Hc : forall k, peek calm (ticks calm k w) = __init__).
  { intros k. rewrite peek_quiet by reflexivity.
    now rewrite controller_ticks_quiet. }
  split.
  - intros k. now rewrite Hc.
  - intros k. exists 0. split; [exact Hp|]. now rewrite Hc.
  - reflexivity.
Qed.

(** [pause()] during the first check of the loop, [resume()] three polls
    later. *)
Lemma pause_resume_undisturbed : undisturbed (pause_resume 1 4) 4 start.
Proof.
  assert (Hq : forall t, 5 <= t -> ui (pause_resume 1 4) t = []).
  { intros t Ht. simpl.
    destruct (Nat.eqb_spec t 1); [lia|]. destruct (Nat.eqb_spec t 4); [lia|].
    reflexivity. }
  split.
  - intros k. apply never_stopped_without_stop; [|reflexivity].
    intros t. simpl. now destruct (t =? 1), (t =? 4).
  - intros k.
    destruct (Nat.le_gt_cases 5 k) as [Hk|Hk].
    + exists 0. split; [lia|]. rewrite Nat.add_0_r.
      replace k with ((k - 5) + 5) by lia. rewrite <- ticks_add.
      pose proof (quiet_from _ 5 Hq (k - 5)
                    (ticks (pause_resume 1 4) 5 start)) as Hlater.
      rewrite now_ticks in Hlater. simpl now in Hlater.
      destruct (Hlater (Nat.le_refl 5)) as [_ ->]. reflexivity.
    + destruct k as [|k]; [exists 0; split; [lia|reflexivity]|].
      exists (3 - k). split; [lia|].
      replace (S k + (3 - k)) with 4 by lia. reflexivity.
  - reflexivity.
Qed.

Lemma says_hello_never_says_stopped env :
  asr env = says "hello" -> never_says_stopped env.
Proof. intros H t a d. rewrite H. discriminate. Qed.

Lemma chunk_fits_mono16k (audio : AudioSegment unit) i :
  (mono16k (chunk audio i) <= size_limit)%N.
Proof.
  unfold mono16k.
  assert (H : length (chunk audio i) <= chunk_length_ms)
    by (rewrite chunk_window, window_length; lia).
  assert (H' : (N.of_nat (length (chunk audio i)) <= N.of_nat chunk_length_ms)%N)
    by lia.
  change (N.of_nat chunk_length_ms) with 60000%N in H'.
  change size_limit with 10485760%N. lia.
Qed.

(** ** The claims on concrete runs *)

Section ConcreteRuns.

Local Open Scope string_scope.

(** C1: the aggregate holds more than the recognized chunks.  On a
    one-chunk audio whose request times out, the loop logs the chunk as
    recognized and returns the text of the exception, not the empty
    string; with the keys missing it returns the text of that error. *)
Theorem failed_chunks_reach_the_aggregate :
  transcribe_large_audio_baidu timeouts 1 0 0 (audio_of 1000) "zh" false false start
  = Returned "百度语音识别服务异常: timed out"
      {| controller := __init__; now := 4 |}
      [Processing 0 0 1; Exported 0 0 (audio_of 1000);
       Request (audio_of 1000) (Some 1537%Z);
       ChunkOk 0 0 "百度语音识别服务异常: timed out"; Completed 0]
  /\ parse_response (asr timeouts 3 (audio_of 1000) (Some 1537%Z))
     = exception_msg "timed out"
  /\ String.prefix error_prefix (exception_msg "timed out") = false
  /\ transcribe_large_audio_baidu (no_keys mono16k) 1 0 0 (audio_of 1000) "zh"
       false false start
     = Returned missing_keys_msg {| controller := __init__; now := 2 |}
         [Processing 0 0 1; Exported 0 0 (audio_of 1000);
          ChunkOk 0 0 missing_keys_msg; Completed 0]
  /\ String.prefix error_prefix missing_keys_msg = false.
Proof. vm_compute. repeat split. Qed.


(** C4, as stated, fails: 61 s of CD-quality audio make 2 chunks, the
    first one over the limit of a request, so that its transcription
    starts a chunked run of its own, with the same callback; that run
    fails on its export, the outer one completes, and the callback has
    been called four times, with 0 twice. *)
Lemma nested_run_calls_progress_again :
  chunks_number (audio_of 61000) = 2
  /\ (size_limit < stereo44k (chunk (audio_of 61000) 0))%N
  /\ match transcribe_large_audio_baidu (stereo_failing_at 4) 1 1 0
             (audio_of 61000) "zh" true false start with
     | Returned r w' log =>
         last log (Aborted 0 "") = Completed 0
         /\ uninterrupted log
         /\ progress_calls log = [(0, 2); (0, 2); (1, 2); (2, 2)]
         /\ processed_at 1 log = [0]
     | _ => False
     end.
Proof. vm_compute. repeat split. Qed.

(** C5, as stated, fails: a file over the limit does not take the chunked
    path when a key is missing, and the last chunk of 61 s of audio has
    1000 ms, not 60000. *)
Lemma keys_come_first_and_last_chunk_is_short :
  (size_limit < wav_size (no_keys stereo44k) (audio_of 61000))%N
  /\ transcribe_audio_baidu (no_keys stereo44k) 1 1 0 (audio_of 61000) "zh"
       true true start
     = Returned missing_keys_msg start []
  /\ chunks_number (audio_of 61000) = 2
  /\ length (chunk (audio_of 61000) 1) = 1000.
Proof. vm_compute. repeat split. Qed.

(** C7, as stated, fails: no stop and no pause at all, and the loop does
    not get through its chunks.  On 61 s of telephone-quality audio (2
    chunks) the export of chunk 1 fails: the index is taken up, the chunk
    neither exported nor sent, and the run returns the text of the error.
    When the speaker says the words of the stopped message in chunk 0, the
    loop returns them after that chunk and never takes chunk 1 up.  On 61 s
    of CD-quality audio chunk 0 is over the limit of a request: the chunked
    run nested for it (here the nesting allowed is 1) settles none of its 2
    chunks and aborts where the nesting ends; the outer loop goes through
    both indices, but the only request sent is the one of chunk 1. *)
Lemma chunks_left_without_a_stop :
  chunks_number (audio_of 61000) = 2
  /\ (forall t, ui (mono_failing_at 10) t = [])
  /\ match transcribe_large_audio_baidu (mono_failing_at 10) 1 0 0
             (audio_of 61000) "zh" true true start with
     | Returned r w' log =>
         r = large_error_msg "No space left on device"
         /\ uninterrupted log
         /\ processed_at 0 log = [0; 1]
         /\ map fst (exported_at 0 log) = [0]
         /\ judged_at 0 log = [0]
         /\ length (requests log) = 1
     | _ => False
     end
  /\ (forall t, ui hears_the_stopped_message t = [])
  /\ match transcribe_large_audio_baidu hears_the_stopped_message 1 0 0
             (audio_of 61000) "zh" true true start with
     | Returned r w' log =>
         r = stopped_msg
         /\ uninterrupted log
         /\ processed_at 0 log = [0]
         /\ judged_at 0 log = []
     | _ => False
     end
  /\ (forall t, ui cd_quality t = [])
  /\ (size_limit < wav_size cd_quality (chunk (audio_of 61000) 0))%N
  /\ chunks_number (chunk (audio_of 61000) 0) = 2
  /\ match transcribe_large_audio_baidu cd_quality 1 1 0
             (audio_of 61000) "zh" true true start with
     | Returned r w' log =>
         uninterrupted log
         /\ processed_at 0 log = [0; 1]
         /\ judged_at 1 log = []
         /\ map (@length unit) (requests log) = [1000]
     | _ => False
     end.
Proof. vm_compute. repeat split. Qed.

(** C10, as stated, fails: the empty last chunk of 60 s of audio is not
    always exported and submitted.  When [stop()] is called while chunk 0 is
    sent, the next check finds it and the run returns without exporting
    chunk 1.  With the keys empty, as the module is shipped, the run
    completes, the empty chunk 1 is exported and nothing is sent to the
    recognition service. *)
Lemma empty_last_chunk_left_out :
  chunks_number (audio_of 60000) = 2
  /\ length (chunk (audio_of 60000) 1) = 0
  /\ ui (stop_at 6) 6 = [Stop]
  /\ match transcribe_large_audio_baidu (stop_at 6) 3 0 0
             (audio_of 60000) "zh" true true start with
     | Returned r w' log =>
         r = stopped_msg
         /\ map (fun e => (fst e, N.of_nat (length (snd e))))
                (exported_at 0 log)
            = [(0, 60000%N)]
         /\ map (fun a => N.of_nat (length a)) (requests log) = [60000%N]
     | _ => False
     end
  /\ keys_missing (no_keys mono16k) = true
  /\ match transcribe_large_audio_baidu (no_keys mono16k) 1 0 0
             (audio_of 60000) "zh" true true start with
     | Returned r w' log =>
         last log (Aborted 0 "") = Completed 0
         /\ map (fun e => (fst e, N.of_nat (length (snd e))))
                (exported_at 0 log)
            = [(0, 60000%N); (1, 0%N)]
         /\ requests log = []
     | _ => False
     end.
Proof. vm_compute. repeat split. Qed.

(** *** The hypotheses of the theorems above, met by runs *)

Lemma calm_run :
  transcribe_large_audio_baidu calm 1 0 0 (audio_of 1000) "zh" true true start
  = Returned "hello" {| controller := __init__; now := 7 |} one_chunk_log.
Proof. vm_compute. reflexivity. Qed.

Lemma calm_fits audio : chunks_fit calm audio.
Proof. intros i _. apply chunk_fits_mono16k. Qed.

Lemma wait_if_paused_returns_exactly_when_witness :
  wait_if_paused (pause_resume 0 2) 5 start
  = Returned tt (ticks (pause_resume 0 2) 3 start) [].
Proof.
  apply (proj1 (proj2 (proj2 (proj2 (proj2
           (wait_if_paused_returns_exactly_when unit (pause_resume 0 2))))))).
  exists 2. split; [lia|]. split; [reflexivity|].
  split; [|split; reflexivity].
  intros [|[|j]] Hj; [reflexivity|reflexivity|lia].
Defined.

Lemma stop_is_terminal_until_reset_witness :
  _stop_requested (snd (stop __init__)) = true
  /\ _stop_requested (perform_all (snd (stop __init__)) [Pause; Resume; Stop])
     = true.
Proof.
  split; [reflexivity|].
  apply (stop_is_terminal_until_reset (snd (stop __init__)) eq_refl).
  reflexivity.
Defined.

Lemma reset_restores_initial_state_witness :
  checkpoint calm 1 0 true
    {| controller := snd (reset (snd (stop __init__))); now := 0 |}
  = Returned false {| controller := __init__; now := 3 |} [].
Proof.
  apply (proj2 (proj2 (proj2 (proj2 (proj2 (proj2 (proj2
           (reset_restores_initial_state (snd (stop __init__)))))))))
           unit calm 0 0
           {| controller := snd (reset (snd (stop __init__))); now := 0 |});
    reflexivity.
Defined.

Lemma controller_frame_witness :
  controller (tick calm start) = controller start.
Proof.
  exact (proj2 (proj2
           (proj2 (proj2 (proj2 (proj2 (proj2 (proj2
              (controller_frame __init__))))))
              unit calm 1 start))
           (fun t => eq_refl)).
Defined.


Lemma progress_calls_of_run_witness :
  chunks_fit calm (audio_of 1000)
  /\ progress_calls one_chunk_log
     = map (fun i => (i, chunks_number (audio_of 1000)))
           (seq 0 (chunks_number (audio_of 1000) + 1)).
Proof.
  split; [apply calm_fits|].
  apply (proj2 (proj2
           (progress_calls_of_run unit calm 1 0 0 (audio_of 1000) "zh" true
              start _ _ _ (calm_fits _) calm_run))).
  unfold one_chunk_log. simpl. tauto.
Defined.

Lemma chunked_path_and_chunks_witness :
  keys_missing calm = false /\ io_error calm (now start) = None
  /\ transcribe_audio_baidu calm 1 0 0 (audio_of 1000) "zh" true true start
     = Returned (parse_response (asr calm 1 (audio_of 1000) (dev_pid_of "zh")))
                (ticks calm 2 start) [Request (audio_of 1000) (dev_pid_of "zh")].
Proof.
  split; [reflexivity|]. split; [reflexivity|].
  apply (proj1 (proj2
           (chunked_path_and_chunks unit calm 1 0 0 (audio_of 1000) "zh"
              true true start eq_refl eq_refl))).
  vm_compute. discriminate.
Defined.

Lemma chunks_processed_once_in_order_witness :
  exists r w' log,
    transcribe_large_audio_baidu (pause_resume 1 4) 4 0 0 (audio_of 1000)
      "zh" true true start = Returned r w' log
    /\ In (Completed 0) log
    /\ processed_at 0 log = seq 0 (chunks_number (audio_of 1000))
    /\ exported_at 0 log
       = map (export_of (audio_of 1000)) (seq 0 (chunks_number (audio_of 1000)))
    /\ judged_at 0 log = seq 0 (chunks_number (audio_of 1000))
    /\ (keys_missing (pause_resume 1 4) = false ->
        requests log
        = map (chunk (audio_of 1000)) (seq 0 (chunks_number (audio_of 1000)))).
Proof.
  apply (proj2 (chunks_processed_once_in_order unit (pause_resume 1 4) 4
                  0 0 (audio_of 1000) "zh" true true start)).
  - intros i _. apply chunk_fits_mono16k.
  - now apply says_hello_never_says_stopped.
  - exact pause_resume_undisturbed.
Defined.

Lemma chunks_partition_with_empty_last_witness :
  length (audio_of 60000) = 1 * chunk_length_ms
  /\ chunks_number (audio_of 60000) = 1 + 1
  /\ chunk (audio_of 60000) 1 = []
  /\ exists r w' log,
       transcribe_large_audio_baidu calm 1 0 0 (audio_of 60000) "zh"
         true true start = Returned r w' log
       /\ In (Completed 0) log
       /\ In (Exported 0 1 []) log
       /\ In (Request [] (dev_pid_of "zh")) log.
Proof.
  assert (H : length (audio_of 60000) = 1 * chunk_length_ms)
    by (apply Nat.eqb_eq; vm_compute; reflexivity).
  split; [exact H|].
  destruct (proj2 (proj2 (proj2
              (chunks_partition_with_empty_last unit calm 1 (audio_of 60000))))
              1 H) as (H1 & H2 & _ & Hruns).
  split; [exact H1|]. split; [exact H2|].
  destruct (Hruns 0 0 "zh" true true start (calm_fits _)
              (says_hello_never_says_stopped calm eq_refl)
              (calm_undisturbed 1 start (Nat.lt_0_succ 0) eq_refl))
    as (r & w' & log & Hrun & Hdone & Hexp & Hreq).
  exists r, w', log. repeat split; try assumption. now apply Hreq.
Defined.

End ConcreteRuns.

(** * Further properties of the transcription code *)

(** ** A file over the limit of a request *)

Section Oversized.

Variable sample : Type.
Variable env : Env sample.
Variable patience : nat.

Local Abbreviation event := (event sample).

Ltac all_sendable :=
  repeat match goal with
  | |- Forall _ [] => constructor
  | |- Forall _ _ => assumption
  | |- Forall _ (opening _ _ _ _) => unfold opening
  | |- Forall _ (if ?b then _ else _) => destruct b
  | |- Forall _ (_ :: _) => constructor; [first [exact I|assumption|idtac]|]
  | |- Forall _ (_ ++ _) => apply Forall_app; split
  end.

Section Loop.

Variable transcribe : AudioSegment sample -> string -> bool -> bool -> M sample string.
Variables (level : nat) (audio : AudioSegment sample) (language : string).
Variables (pc tc : bool).

Hypothesis transcribe_sendable : forall a,
  ends (transcribe a language pc tc)
       (fun _ log => Forall (sendable env) log)
       (fun log => Forall (sendable env) log).

Lemma loop_sendable total todo : forall ts,
  ends (chunk_loop env patience transcribe level audio language pc tc total todo ts)
       (fun _ log => Forall (sendable env) log)
       (fun log => Forall (sendable env) log).
Proof.
  induction todo as [|i rest IH]; intros ts.
  - eapply ends_mono; [apply ends_ret| |intros ? []].
    intros a log [_ ->]. constructor.
  - rewrite loop_cons.
    eapply ends_bind; [apply ends_checkpoint|intros ? []
                      |intros stopped log1 ->].
    destruct stopped.
    { eapply ends_mono; [apply ends_ret| |intros ? []].
      intros a log [_ ->]. repeat constructor. }
    eapply ends_bind; [apply ends_emit|intros ? []|intros _ log2 ->].
    eapply ends_bind; [apply ends_report|intros ? []|intros _ log3 ->].
    eapply ends_bind; [apply ends_file_op| |intros _ log4 ->].
    { intros ? ->. simpl. all_sendable. }
    eapply ends_bind; [apply ends_emit|intros ? []|intros _ log5 ->].
    eapply ends_bind; [apply transcribe_sendable| |intros chunk_result sub Hsub].
    { intros sub Hsub. simpl. all_sendable. }
    destruct (chunk_result =? stopped_msg)%string.
    { eapply ends_mono; [apply ends_ret| |intros ? []].
      intros a log [_ ->]. simpl. all_sendable. }
    destruct (negb _).
    + eapply ends_bind; [apply ends_emit|intros ? []|intros _ log7 ->].
      eapply ends_mono; [apply IH| |]; simpl; intros; all_sendable.
    + eapply ends_bind; [apply ends_emit|intros ? []|intros _ log7 ->].
      eapply ends_mono; [apply IH| |]; simpl; intros; all_sendable.
Qed.

Lemma large_sendable :
  ends (large_body env patience transcribe level audio language pc tc)
       (fun _ log => Forall (sendable env) log)
       (fun _ => False).
Proof.
  unfold large_body.
  eapply ends_try_except with (E1 := Forall (sendable env)).
  - eapply ends_bind; [apply ends_file_op| |intros _ log1 ->].
    { intros ? ->. constructor. }
    eapply ends_bind; [apply loop_sendable|auto|intros res log2 Hlog2].
    destruct res as [r|ts].
    + eapply ends_mono; [apply ends_ret| |intros ? []].
      intros a log [_ ->]. simpl. all_sendable.
    + eapply ends_bind; [apply ends_report|intros ? []|intros _ log3 ->].
      eapply ends_bind; [apply ends_emit|intros ? []|intros _ log4 ->].
      eapply ends_mono; [apply ends_ret| |intros ? []].
      intros a log [_ ->]. simpl. all_sendable.
  - intros e log1 Hlog1.
    eapply ends_bind; [apply ends_emit|intros ? []|intros _ log2 ->].
    eapply ends_mono; [apply ends_ret| |intros ? []].
    intros a log [_ ->]. all_sendable.
Qed.

End Loop.

(** The request of line 189 comes after the size test of line 161. *)
Lemma baidu_sendable fuel : forall level a language pc tc,
  ends (transcribe_audio_baidu env patience fuel level a language pc tc)
       (fun _ log => Forall (sendable env) log)
       (fun log => Forall (sendable env) log).
Proof.
  induction fuel as [|fuel IH]; intros level a language pc tc;
    rewrite transcribe_audio_baidu_unfold; unfold baidu_body;
    (destruct (keys_missing env);
     [eapply ends_mono; [apply ends_ret| |intros ? []];
      intros r log [_ ->]; constructor|]);
    (eapply ends_bind; [apply ends_file_op|intros ? ->; constructor
                       |intros _ log1 ->]); simpl;
    destruct (N.ltb_spec size_limit (wav_size env a)) as [Hbig|Hfit].
  - apply ends_raise. constructor.
  - eapply ends_mono; [apply ends_single_request| |intros ? []].
    intros r log [-> _]. repeat constructor. exact Hfit.
  - eapply ends_mono; [apply large_sendable| |intros ? []]; [|auto].
    intros a'. apply IH.
  - eapply ends_mono; [apply ends_single_request| |intros ? []].
    intros r log [-> _]. repeat constructor. exact Hfit.
Qed.

Lemma sendable_requests (log : list event) :
  Forall (sendable env) log ->
  forall a, In a (requests log) -> (wav_size env a <= size_limit)%N.
Proof.
  induction 1 as [|e log He _ IH]; intros a Hin; [destruct Hin|].
  destruct e; simpl in Hin; try (now apply IH).
  destruct Hin as [<-|Hin]; [exact He|now apply IH].
Qed.

(** X1: no file over the limit is ever sent.  In every run of
    [transcribe_audio_baidu] and of [transcribe_large_audio_baidu] that
    returned, at any depth of nesting, every request carries an audio whose
    file is within 10 MB; an audio over the limit, such as a chunk of 60 s
    of CD-quality audio, is in no request. *)
Theorem oversized_audio_is_never_sent fuel level audio language pc tc w r w' log
    (Hrun : transcribe_large_audio_baidu env patience fuel level audio language
              pc tc w = Returned r w' log
            \/ transcribe_audio_baidu env patience fuel level audio language
                 pc tc w = Returned r w' log) :
  (forall a, In a (requests log) -> (wav_size env a <= size_limit)%N)
  /\ (forall a, (size_limit < wav_size env a)%N -> ~ In a (requests log)).
Proof.
  assert (Hall : Forall (sendable env) log).
  { destruct Hrun as [Hrun|Hrun].
    - pose proof (large_sendable _ level audio language pc tc
                    (fun a => baidu_sendable fuel (S level) a language pc tc) w) as H.
      unfold transcribe_large_audio_baidu in Hrun. now rewrite Hrun in H.
    - pose proof (baidu_sendable fuel level audio language pc tc w) as H.
      now rewrite Hrun in H. }
  split; [now apply sendable_requests|].
  intros a Hbig Hin. apply (sendable_requests _ Hall) in Hin. lia.
Qed.

End Oversized.

(** ** What a failing file operation does to a chunked run *)

Section Aborts.

Variable sample : Type.
Variable env : Env sample.
Variable patience : nat.

Local Abbreviation event := (event sample).

Lemma no_abort_deeper level e (log : list event) :
  Forall (from_level (S level)) log -> ~ In (Aborted level e) log.
Proof.
  intros H Hin. rewrite Forall_forall in H. specialize (H _ Hin).
  simpl in H. lia.
Qed.

Lemma loop_run_not_aborted level audio language pc total todo ts res
    (log : list event) e :
  loop_run (baidu_run env (S level) language) baidu_raise level audio pc
           total todo ts res log ->
  ~ In (Aborted level e) log.
Proof.
  induction 1 as [ts|i rest ts|i rest ts|i rest ts sub Hsub
                  |i rest ts sub Hsub
                  |i rest ts sub r res log Hsub Hr Hp Hrun IH
                  |i rest ts sub r res log Hsub Hr Hp Hrun IH];
    try (apply baidu_run_sub in Hsub as [Hsub _];
         apply (no_abort_deeper level e) in Hsub);
    try (apply baidu_raise_sub in Hsub; subst sub);
    unfold opening; destruct pc;
    repeat (progress (rewrite ?in_app_iff; simpl));
    intuition discriminate.
Qed.

(** X2: a chunked run never raises: what goes wrong in it is caught and
    returned as text.  When the audio cannot be loaded the run returns that
    text at once, nothing taken up.  In every run that logged the abort, the
    result is the text of the error alone, the completion is not logged and
    the callback has not been told the end: what the chunks before the
    failure gave is not returned. *)
Theorem chunked_run_aborts_as_text fuel level audio language pc tc w :
  (forall e w' log,
      transcribe_large_audio_baidu env patience fuel level audio language
                                   pc tc w <> Raised e w' log)
  /\ (forall e, io_error env (now w) = Some e ->
        transcribe_large_audio_baidu env patience fuel level audio language
                                     pc tc w
        = Returned (large_error_msg e) (tick env w) [Aborted level e])
  /\ (forall r w' log e,
        transcribe_large_audio_baidu env patience fuel level audio language
                                     pc tc w = Returned r w' log ->
        In (Aborted level e) log ->
        r = large_error_msg e
        /\ ~ In (Completed level) log
        /\ exists log0, log = log0 ++ [Aborted level e]
                        /\ processed_at level log = processed_at level log0).
Proof.
  split.
  { intros e w' log Hrun.
    pose proof (large_runs sample env patience fuel level audio language pc tc w) as H.
    now rewrite Hrun in H. }
  split.
  { intros e He. unfold transcribe_large_audio_baidu, large_body, try_except,
      bind, file_op. now rewrite He. }
  intros r w' log e Hrun Hin. apply returned_large_run in Hrun.
  destruct Hrun as [e'|e' log' Hrun|r' log' Hrun|ts log' Hrun].
  - destruct Hin as [Hin|[]]. injection Hin as ->.
    split; [reflexivity|]. split; [intros [H|[]]; discriminate|].
    now exists [].
  - pose proof (loop_run_not_aborted _ _ _ _ _ _ _ _ _ e Hrun) as Hnot.
    apply loop_run_reads in Hrun as (_ & _ & Hnc & _).
    apply in_app_or in Hin as [Hin|[Hin|[]]]; [contradiction|].
    injection Hin as ->. split; [reflexivity|]. split.
    + intros H. apply in_app_or in H as [H|[H|[]]]; [contradiction|discriminate].
    + exists log'. split; [reflexivity|].
      rewrite processed_at_app. simpl. now rewrite app_nil_r.
  - now apply (loop_run_not_aborted _ _ _ _ _ _ _ _ _ e) in Hrun.
  - apply (loop_run_not_aborted _ _ _ _ _ _ _ _ _ e) in Hrun.
    apply in_app_or in Hin as [Hin|Hin]; [contradiction|].
    destruct pc; simpl in Hin; intuition discriminate.
Qed.

End Aborts.

(** ** Which chunk results reach the aggregate *)

Section Verdicts.

Variable sample : Type.
Variable env : Env sample.
Variable patience : nat.

Local Abbreviation event := (event sample).

Lemma prefix_app (p s : string) : String.prefix p (p ++ s) = true.
Proof.
  induction p as [|c p IH]; simpl; [now destruct s|].
  destruct (Ascii.ascii_dec c c) as [_|Hc]; [exact IH|contradiction].
Qed.

Lemma error_reply_dropped err_no err_msg result :
  err_no <> 0%Z ->
  String.prefix error_prefix (parse_response (Response err_no err_msg result))
  = true
  /\ parse_response (Response err_no err_msg result) <> stopped_msg.
Proof.
  intros Hno. simpl. destruct (Z.eqb_spec err_no 0) as [|_]; [contradiction|].
  unfold error_msg. split; [apply prefix_app|discriminate].
Qed.

Lemma exception_reply_kept e :
  String.prefix error_prefix (parse_response (Failure e)) = false
  /\ parse_response (Failure e) <> stopped_msg.
Proof. split; [reflexivity|discriminate]. Qed.

Lemma no_verdict_deeper level (log : list event) :
  Forall (from_level (S level)) log ->
  forall i t, ~ In (ChunkOk level i t) log /\ ~ In (ChunkFailed level i t) log.
Proof.
  intros H i t. rewrite Forall_forall in H.
  split; intros Hin; specialize (H _ Hin); simpl in H; lia.
Qed.

Lemma loop_run_verdicts level audio language pc total todo ts res
    (log : list event) :
  loop_run (baidu_run env (S level) language) baidu_raise level audio pc
           total todo ts res log ->
  forall i t,
    (In (ChunkOk level i t) log ->
       In i todo /\ String.prefix error_prefix t = false /\ t <> stopped_msg)
    /\ (In (ChunkFailed level i t) log ->
       In i todo /\ String.prefix error_prefix t = true /\ t <> stopped_msg).
Proof.
  induction 1 as [ts|i rest ts|i rest ts|i rest ts sub Hsub
                  |i rest ts sub Hsub
                  |i rest ts sub r res log Hsub Hr Hp Hrun IH
                  |i rest ts sub r res log Hsub Hr Hp Hrun IH];
    intros j t;
    try (apply baidu_run_sub in Hsub as [Hsub _];
         destruct (no_verdict_deeper level sub Hsub j t) as [Hno1 Hno2]);
    try (apply baidu_raise_sub in Hsub; subst sub);
    try destruct (IH j t) as [IH1 IH2];
    unfold opening; destruct pc;
    repeat (progress (rewrite ?in_app_iff; simpl));
    split; intros Hin;
    repeat match goal with
    | H : _ \/ _ |- _ => destruct H as [H|H]
    | H : False |- _ => destruct H
    | H : In _ [] |- _ => destruct H
    end;
    try discriminate; try contradiction;
    try (injection Hin as <- <-; now auto);
    try (destruct (IH1 Hin) as (? & ? & ?); now auto);
    try (destruct (IH2 Hin) as (? & ? & ?); now auto).
Qed.

(** X3: what the loop keeps and what it drops.  In every run that ended, a
    chunk result logged as recognized does not start with the error prefix
    and one logged as failed does; the result of a run that completed is the
    newline-join of the results logged as recognized, in this order.  An
    answer of the service with an error number other than 0 always starts
    with the prefix and is dropped; the text made for an exception of the
    request and the text for missing keys never do, and reach the
    aggregate. *)
Theorem kept_and_dropped fuel level audio language pc tc w r w' log
    (Hrun : transcribe_large_audio_baidu env patience fuel level audio
              language pc tc w = Returned r w' log) :
  (forall i t, In (ChunkOk level i t) log ->
       i < chunks_number audio
       /\ String.prefix error_prefix t = false /\ t <> stopped_msg)
  /\ (forall i t, In (ChunkFailed level i t) log ->
       i < chunks_number audio /\ String.prefix error_prefix t = true)
  /\ (In (Completed level) log -> r = join (appended_at level log))
  /\ (forall err_no err_msg result, err_no <> 0%Z ->
        String.prefix error_prefix
          (parse_response (Response err_no err_msg result)) = true)
  /\ (forall e, String.prefix error_prefix (parse_response (Failure e)) = false)
  /\ String.prefix error_prefix missing_keys_msg = false.
Proof.
  apply returned_large_run in Hrun.
  assert (Hloop : forall res log',
    loop_run (baidu_run env (S level) language) baidu_raise level audio pc
             (chunks_number audio) (seq 0 (chunks_number audio)) [] res log' ->
    forall i t,
      (In (ChunkOk level i t) log' ->
         i < chunks_number audio
         /\ String.prefix error_prefix t = false /\ t <> stopped_msg)
      /\ (In (ChunkFailed level i t) log' ->
         i < chunks_number audio /\ String.prefix error_prefix t = true)).
  { intros res log' H i t.
    destruct (loop_run_verdicts _ _ _ _ _ _ _ _ _ H i t) as [H1 H2].
    split; intros Hin.
    - destruct (H1 Hin) as (Hi & ? & ?). apply in_seq in Hi. repeat split; auto; lia.
    - destruct (H2 Hin) as (Hi & ? & ?). apply in_seq in Hi. repeat split; auto; lia. }
  pose proof (large_run_reads sample env level audio language pc r log Hrun)
    as (_ & _ & Hdone).
  assert (Hall : forall i t,
      (In (ChunkOk level i t) log ->
         i < chunks_number audio
         /\ String.prefix error_prefix t = false /\ t <> stopped_msg)
      /\ (In (ChunkFailed level i t) log ->
         i < chunks_number audio /\ String.prefix error_prefix t = true)).
  { intros i t.
    destruct Hrun as [e'|e' log' Hrun|r' log' Hrun|ts log' Hrun].
    - split; intros [H|[]]; discriminate.
    - destruct (Hloop _ _ Hrun i t) as [H1 H2].
      split; intros Hin; apply in_app_or in Hin as [Hin|[Hin|[]]];
        auto; discriminate.
    - exact (Hloop _ _ Hrun i t).
    - destruct (Hloop _ _ Hrun i t) as [H1 H2].
      split; intros Hin; apply in_app_or in Hin as [Hin|Hin]; auto;
        destruct pc; simpl in Hin; intuition discriminate. }
  split; [intros i t; apply Hall|]. split; [intros i t; apply Hall|].
  split; [intros Hin; now apply Hdone|].
  split; [intros; now apply error_reply_dropped|].
  split; [intros e; apply exception_reply_kept|reflexivity].
Qed.

End Verdicts.

(** ** Runs with a key missing *)

Section MissingKeys.

Variable sample : Type.
Variable env : Env sample.
Variable patience : nat.

Local Abbreviation event := (event sample).

Hypothesis no_keys : keys_missing env = true.

(** What a call of line 273 gives with a key missing. *)
Local Abbreviation refused :=
  (fun (_ : AudioSegment sample) (r : string) (sub : list event) =>
     r = missing_keys_msg /\ sub = []).
Local Abbreviation never :=
  (fun (_ : AudioSegment sample) (_ : list event) => False).

Lemma refused_at_once fuel level a language pc tc w :
  transcribe_audio_baidu env patience fuel level a language pc tc w
  = Returned missing_keys_msg w [].
Proof.
  rewrite transcribe_audio_baidu_unfold. unfold baidu_body.
  now rewrite no_keys.
Qed.

Lemma refused_ends fuel level a language pc tc :
  ends (transcribe_audio_baidu env patience fuel level a language pc tc)
       (refused a) (never a).
Proof. intros w. rewrite refused_at_once. now split. Qed.

Lemma refused_ok level a r (sub : list event) :
  refused a r sub -> Forall (from_level (S level)) sub /\ stop_ok r sub.
Proof. intros [_ ->]. split; [constructor|now left]. Qed.

Lemma never_ok (a : AudioSegment sample) (sub : list event) :
  never a sub -> sub = [].
Proof. intros []. Qed.

Lemma refused_loop_run level audio pc total todo ts res (log : list event) :
  loop_run refused never level audio pc total todo ts res log ->
  requests log = []
  /\ forall ts', res = Some (inr ts') ->
       ts' = ts ++ repeat missing_keys_msg (length todo).
Proof.
  induction 1 as [ts|i rest ts|i rest ts|i rest ts sub Hsub
                  |i rest ts sub Hsub
                  |i rest ts sub r res log Hsub Hr Hp Hrun [IH1 IH2]
                  |i rest ts sub r res log Hsub Hr Hp Hrun [IH1 IH2]];
    try (destruct Hsub as [-> ->]); try destruct Hsub;
    try discriminate;
    unfold opening; rewrite ?requests_app; simpl;
    rewrite ?requests_app; simpl; rewrite ?IH1;
    (split; [destruct pc; reflexivity|]); intros ts' Hres;
    try discriminate.
  - injection Hres as <-. now rewrite app_nil_r.
  - rewrite (IH2 ts' Hres), <- app_assoc. reflexivity.
Qed.

(** X4: with one of the three keys empty, [transcribe_audio_baidu] returns
    the text of the configuration error at once: no file is read, no request
    is sent, no instant passes, whatever the size of the file.  A chunked
    run entered in that state sends no request either, and when it
    completes, its result is that text once for every chunk, joined by
    newlines. *)
Theorem missing_keys_send_nothing fuel level audio language pc tc w :
  transcribe_audio_baidu env patience fuel level audio language pc tc w
  = Returned missing_keys_msg w []
  /\ forall r w' log,
       transcribe_large_audio_baidu env patience fuel level audio language
                                    pc tc w = Returned r w' log ->
       requests log = []
       /\ (In (Completed level) log ->
           r = join (repeat missing_keys_msg (chunks_number audio))).
Proof.
  split; [apply refused_at_once|].
  intros r w' log Hrun.
  pose proof (large_sound sample env patience _ refused never level audio
                language pc tc
                (fun a => refused_ends fuel (S level) a language pc tc) w) as H.
  unfold transcribe_large_audio_baidu in Hrun. rewrite Hrun in H.
  destruct H as [e|e log' Hloop|r' log' Hloop|ts log' Hloop].
  - split; [reflexivity|]. intros [Hin|[]]. discriminate.
  - pose proof (loop_run_not_completed sample _ _ level audio pc
                  (refused_ok level) never_ok _ _ _ _ _ Hloop) as Hnot.
    apply refused_loop_run in Hloop as [Hreq _].
    rewrite requests_app, Hreq. split; [reflexivity|].
    intros Hin. apply in_app_or in Hin as [Hin|[Hin|[]]];
      [contradiction|discriminate].
  - pose proof (loop_run_not_completed sample _ _ level audio pc
                  (refused_ok level) never_ok _ _ _ _ _ Hloop) as Hnot.
    apply refused_loop_run in Hloop as [Hreq _].
    split; [exact Hreq|]. intros Hin. contradiction.
  - apply refused_loop_run in Hloop as [Hreq Hts].
    rewrite requests_app, Hreq. split; [destruct pc; reflexivity|].
    intros _. rewrite (Hts ts eq_refl), length_seq. reflexivity.
Qed.

End MissingKeys.

(** ** Runs without a controller or without a callback *)

Section Permitted.

Variable sample : Type.
Variable env : Env sample.
Variable patience : nat.

Local Abbreviation event := (event sample).

Lemma ends_checkpoint_permitted level tc :
  ends (checkpoint env patience level tc)
       (fun stopped log =>
          log = (if stopped then [Interrupted level] else [])
          /\ (tc = false -> stopped = false))
       (fun _ => False).
Proof.
  intros w. pose proof (ends_checkpoint sample env patience level tc w) as H.
  destruct tc; [|simpl; now split].
  destruct (checkpoint env patience level true w); try exact H.
  split; [exact H|discriminate].
Qed.

Lemma permitted_opening pc tc level total i :
  Forall (permitted (sample:=sample) pc tc) (opening level pc total i).
Proof. unfold opening. destruct pc; repeat constructor. Qed.

Ltac permit :=
  repeat match goal with
  | |- Forall _ [] => constructor
  | |- Forall _ _ => assumption
  | |- Forall _ (opening _ _ _ _) => apply permitted_opening
  | |- Forall _ (if ?b then _ else _) => destruct b
  | |- Forall _ (_ :: _) => constructor; [first [exact I|reflexivity|idtac]|]
  | |- Forall _ (_ ++ _) => apply Forall_app; split
  end.

Section Loop.

Variable transcribe : AudioSegment sample -> string -> bool -> bool -> M sample string.
Variables (level : nat) (audio : AudioSegment sample) (language : string).
Variables (pc tc : bool).

Hypothesis transcribe_permitted : forall a,
  ends (transcribe a language pc tc)
       (fun _ log => Forall (permitted pc tc) log)
       (fun log => Forall (permitted pc tc) log).

Lemma loop_permitted total todo : forall ts,
  ends (chunk_loop env patience transcribe level audio language pc tc total todo ts)
       (fun _ log => Forall (permitted pc tc) log)
       (fun log => Forall (permitted pc tc) log).
Proof.
  induction todo as [|i rest IH]; intros ts.
  - eapply ends_mono; [apply ends_ret| |intros ? []].
    intros a log [_ ->]. constructor.
  - rewrite loop_cons.
    eapply ends_bind; [apply ends_checkpoint_permitted|intros ? []
                      |intros stopped log1 [-> Htc]].
    destruct stopped.
    { eapply ends_mono; [apply ends_ret| |intros ? []].
      intros a log [_ ->]. repeat constructor. simpl.
      destruct tc; [reflexivity|]. now specialize (Htc eq_refl). }
    eapply ends_bind; [apply ends_emit|intros ? []|intros _ log2 ->].
    eapply ends_bind; [apply ends_report|intros ? []|intros _ log3 ->].
    eapply ends_bind; [apply ends_file_op| |intros _ log4 ->].
    { intros ? ->. simpl. permit. }
    eapply ends_bind; [apply ends_emit|intros ? []|intros _ log5 ->].
    eapply ends_bind; [apply transcribe_permitted| |intros chunk_result sub Hsub].
    { intros sub Hsub. simpl. permit. }
    destruct (chunk_result =? stopped_msg)%string.
    { eapply ends_mono; [apply ends_ret| |intros ? []].
      intros a log [_ ->]. simpl. permit. }
    destruct (negb _).
    + eapply ends_bind; [apply ends_emit|intros ? []|intros _ log7 ->].
      eapply ends_mono; [apply IH| |]; simpl; intros; permit.
    + eapply ends_bind; [apply ends_emit|intros ? []|intros _ log7 ->].
      eapply ends_mono; [apply IH| |]; simpl; intros; permit.
Qed.

Lemma large_permitted :
  ends (large_body env patience transcribe level audio language pc tc)
       (fun _ log => Forall (permitted pc tc) log)
       (fun _ => False).
Proof.
  unfold large_body.
  eapply ends_try_except with (E1 := Forall (permitted pc tc)).
  - eapply ends_bind; [apply ends_file_op| |intros _ log1 ->].
    { intros ? ->. constructor. }
    eapply ends_bind; [apply loop_permitted|auto|intros res log2 Hlog2].
    destruct res as [r|ts].
    + eapply ends_mono; [apply ends_ret| |intros ? []].
      intros a log [_ ->]. simpl. permit.
    + eapply ends_bind; [apply ends_report|intros ? []|intros _ log3 ->].
      eapply ends_bind; [apply ends_emit|intros ? []|intros _ log4 ->].
      eapply ends_mono; [apply ends_ret| |intros ? []].
      intros a log [_ ->]. simpl. permit.
  - intros e log1 Hlog1.
    eapply ends_bind; [apply ends_emit|intros ? []|intros _ log2 ->].
    eapply ends_mono; [apply ends_ret| |intros ? []].
    intros a log [_ ->]. permit.
Qed.

End Loop.

Lemma baidu_permitted fuel : forall level a language pc tc,
  ends (transcribe_audio_baidu env patience fuel level a language pc tc)
       (fun _ log => Forall (permitted pc tc) log)
       (fun log => Forall (permitted pc tc) log).
Proof.
  induction fuel as [|fuel IH]; intros level a language pc tc;
    rewrite transcribe_audio_baidu_unfold; unfold baidu_body;
    (destruct (keys_missing env);
     [eapply ends_mono; [apply ends_ret| |intros ? []];
      intros r log [_ ->]; constructor|]);
    (eapply ends_bind; [apply ends_file_op|intros ? ->; constructor
                       |intros _ log1 ->]); simpl;
    destruct (size_limit <? wav_size env a)%N.
  - apply ends_raise. constructor.
  - eapply ends_mono; [apply ends_single_request| |intros ? []].
    intros r log [-> _]. repeat constructor.
  - eapply ends_mono; [apply large_permitted| |intros ? []]; [|auto].
    intros a'. apply IH.
  - eapply ends_mono; [apply ends_single_request| |intros ? []].
    intros r log [-> _]. repeat constructor.
Qed.

Lemma permitted_reads pc tc (log : list event) :
  Forall (permitted pc tc) log ->
  (tc = false -> uninterrupted log)
  /\ (pc = false -> progress_calls log = []).
Proof.
  induction 1 as [|e log He _ [IH1 IH2]]; [now split|].
  split; intros Hf.
  - unfold uninterrupted. simpl. rewrite (IH1 Hf), andb_true_r.
    destruct e; try reflexivity. simpl in He. congruence.
  - destruct e; simpl; try (now apply IH2). simpl in He. congruence.
Qed.

(** X5: a run called without a task controller never notices a stop, and
    one called without a progress callback reports no progress, at any depth
    of nesting: no check point is logged in the first, no call of the
    callback in the second.  This is how the command line and the Tk window
    call the transcription. *)
Theorem absent_controller_and_callback fuel level audio language pc tc w :
  (forall r w' log,
      transcribe_audio_baidu env patience fuel level audio language pc tc w
      = Returned r w' log ->
      (tc = false -> uninterrupted log) /\ (pc = false -> progress_calls log = []))
  /\ (forall r w' log,
      transcribe_large_audio_baidu env patience fuel level audio language
                                   pc tc w = Returned r w' log ->
      (tc = false -> uninterrupted log) /\ (pc = false -> progress_calls log = [])).
Proof.
  split; intros r w' log Hrun; apply permitted_reads.
  - pose proof (baidu_permitted fuel level audio language pc tc w) as H.
    now rewrite Hrun in H.
  - pose proof (large_permitted _ level audio language pc tc
                  (fun a => baidu_permitted fuel (S level) a language pc tc) w) as H.
    unfold transcribe_large_audio_baidu in Hrun. now rewrite Hrun in H.
Qed.

End Permitted.

(** ** The worker and the controller it shares *)

Section Frame.

Variable sample : Type.
Variable env : Env sample.
Variable patience : nat.

Local Abbreviation M := (M sample).

Lemma advances_ret {A} (a : A) : advances env (ret a).
Proof. intros w. now exists 0. Qed.

Lemma advances_emit e : advances env (emit e).
Proof. intros w. now exists 0. Qed.

Lemma advances_raise {A} e : advances env (raise (A:=A) e).
Proof. intros w. now exists 0. Qed.

Lemma advances_bind {A B} (m : M A) (k : A -> M B) :
  advances env m -> (forall a, advances env (k a)) -> advances env (bind m k).
Proof.
  intros Hm Hk w. unfold bind. specialize (Hm w).
  destruct (m w) as [a w1 log1|e w1 log1|]; [|exact Hm|exact I].
  destruct Hm as [n ->]. specialize (Hk a (ticks env n w)).
  destruct (k a (ticks env n w)) as [b w2 log2|e w2 log2|]; [| |exact I];
    destruct Hk as [j ->]; exists (j + n); apply ticks_add.
Qed.

Lemma advances_try_except {A} (m : M A) handler :
  advances env m -> (forall e, advances env (handler e)) ->
  advances env (try_except m handler).
Proof.
  intros Hm Hh w. unfold try_except. specialize (Hm w).
  destruct (m w) as [a w1 log1|e w1 log1|]; [exact Hm| |exact I].
  destruct Hm as [n ->]. specialize (Hh e (ticks env n w)).
  destruct (handler e (ticks env n w)) as [b w2 log2|e' w2 log2|]; [| |exact I];
    destruct Hh as [j ->]; exists (j + n); apply ticks_add.
Qed.

Lemma advances_file_op : advances env (file_op env).
Proof.
  intros w. unfold file_op. destruct (io_error env (now w)); now exists 1.
Qed.

Lemma advances_client_asr a dev_pid : advances env (client_asr env a dev_pid).
Proof. intros w. now exists 1. Qed.

(** The two methods the worker calls only read the controller. *)
Lemma advances_is_stop_requested : advances env (locked env is_stop_requested).
Proof. intros w. rewrite locked_is_stop_requested. now exists 1. Qed.

Lemma advances_wait : advances env (wait_if_paused env patience).
Proof.
  intros w.
  destruct (wait_if_paused env patience w) as [[] w' log|e w' log|] eqn:H.
  - apply wait_returned in H as (k & -> & _). now exists (S k).
  - now apply wait_never_raises in H.
  - exact I.
Qed.

Lemma advances_report pc current total :
  advances env (report (sample:=sample) pc current total).
Proof. destruct pc; [apply advances_emit|apply advances_ret]. Qed.

Lemma advances_checkpoint level tc : advances env (checkpoint env patience level tc).
Proof.
  unfold checkpoint. destruct tc; [|apply advances_ret].
  apply advances_bind; [apply advances_is_stop_requested|intros [|]].
  - apply advances_bind; [apply advances_emit|intros _; apply advances_ret].
  - apply advances_bind; [apply advances_wait|intros _].
    apply advances_bind; [apply advances_is_stop_requested|intros [|]].
    + apply advances_bind; [apply advances_emit|intros _; apply advances_ret].
    + apply advances_ret.
Qed.

Lemma advances_loop transcribe level audio language pc tc total todo :
  (forall a, advances env (transcribe a language pc tc)) ->
  forall ts,
    advances env (chunk_loop env patience transcribe level audio language
                             pc tc total todo ts).
Proof.
  intros Hsub. induction todo as [|i rest IH]; intros ts; [apply advances_ret|].
  rewrite loop_cons.
  apply advances_bind; [apply advances_checkpoint|intros [|]];
    [apply advances_ret|].
  apply advances_bind; [apply advances_emit|intros _].
  apply advances_bind; [apply advances_report|intros _].
  apply advances_bind; [apply advances_file_op|intros _].
  apply advances_bind; [apply advances_emit|intros _].
  apply advances_bind; [apply Hsub|intros chunk_result].
  destruct (chunk_result =? stopped_msg)%string; [apply advances_ret|].
  destruct (negb _);
    (apply advances_bind; [apply advances_emit|intros _; apply IH]).
Qed.

Lemma advances_large transcribe level audio language pc tc :
  (forall a, advances env (transcribe a language pc tc)) ->
  advances env (large_body env patience transcribe level audio language pc tc).
Proof.
  intros Hsub. unfold large_body. apply advances_try_except.
  - apply advances_bind; [apply advances_file_op|intros _].
    apply advances_bind; [now apply advances_loop|intros [r|ts]];
      [apply advances_ret|].
    apply advances_bind; [apply advances_report|intros _].
    apply advances_bind; [apply advances_emit|intros _; apply advances_ret].
  - intros e.
    apply advances_bind; [apply advances_emit|intros _; apply advances_ret].
Qed.

Lemma advances_baidu fuel : forall level a language pc tc,
  advances env (transcribe_audio_baidu env patience fuel level a language pc tc).
Proof.
  induction fuel as [|fuel IH]; intros level a language pc tc;
    rewrite transcribe_audio_baidu_unfold; unfold baidu_body;
    (destruct (keys_missing env); [apply advances_ret|]);
    (apply advances_bind; [apply advances_file_op|intros _]);
    (destruct (size_limit <? wav_size env a)%N;
     [|apply advances_bind;
       [apply advances_client_asr|intros ?; apply advances_ret]]).
  - apply advances_raise.
  - apply advances_large. intros a'. apply IH.
Qed.

(** The controller after [n] instants: the calls the controlling thread
    made during them, in order, and nothing else. *)
Lemma controller_ticks n w :
  controller (ticks env n w)
  = perform_all (controller w) (flat_map (ui env) (seq (now w) n)).
Proof.
  induction n as [|n IH]; [reflexivity|].
  rewrite ticks_succ, seq_S, flat_map_app. unfold perform_all in *.
  rewrite fold_left_app, <- IH. simpl. rewrite app_nil_r.
  unfold peek, perform_all. now rewrite now_ticks.
Qed.

Lemma advanced_world n w :
  now (ticks env n w) = now w + n
  /\ controller (ticks env n w)
     = perform_all (controller w) (flat_map (ui env) (seq (now w) n))
  /\ ((forall t, ui env t = []) -> controller (ticks env n w) = controller w).
Proof.
  split; [apply now_ticks|]. split; [apply controller_ticks|].
  apply controller_ticks_quiet.
Qed.

(** X6: the transcription never changes the controller it is given.  When
    a run ends, at any depth of nesting, the world is the one the instants
    of the run made: the controller is the one the run found with the calls
    the controlling thread made meanwhile, in order; [paused] and
    [stop_requested] are as the run found them when that thread made no
    call.  The run clears neither flag: only [reset] does. *)
Theorem run_leaves_controller_to_its_callers fuel level audio language pc tc w :
  let done (w' : World) :=
    exists n,
      w' = ticks env n w
      /\ now w' = now w + n
      /\ controller w'
         = perform_all (controller w) (flat_map (ui env) (seq (now w) n))
      /\ ((forall t, ui env t = []) -> controller w' = controller w) in
  match transcribe_large_audio_baidu env patience fuel level audio language
          pc tc w with
  | Returned _ w' _ | Raised _ w' _ => done w'
  | Pending => True
  end
  /\ match transcribe_audio_baidu env patience fuel level audio language
             pc tc w with
     | Returned _ w' _ | Raised _ w' _ => done w'
     | Pending => True
     end.
Proof.
  intros done. split.
  - pose proof (advances_large _ level audio language pc tc
                  (fun a => advances_baidu fuel (S level) a language pc tc) w) as H.
    unfold transcribe_large_audio_baidu.
    destruct (large_body _ _ _ _ _ _ _ _ w) as [r w' log|e w' log|];
      [| |exact I]; destruct H as [n ->]; exists n;
      (split; [reflexivity|apply advanced_world]).
  - pose proof (advances_baidu fuel level audio language pc tc w) as H.
    destruct (transcribe_audio_baidu _ _ _ _ _ _ _ _ w) as [r w' log|e w' log|];
      [| |exact I]; destruct H as [n ->]; exists n;
      (split; [reflexivity|apply advanced_world]).
Qed.

End Frame.

(** ** What is sent to the recognition service *)

Section Sent.

Variable sample : Type.
Variable env : Env sample.
Variable patience : nat.

Local Abbreviation event := (event sample).

Hypothesis keys : keys_missing env = false.

(** X7: with the keys configured and every chunk within the limit of a
    request, the requests of a chunked run that ended carry the chunks
    0, ..., k-1 of the audio, one request a chunk, in this order.  When the
    run completed, the audio of its requests put end to end is the audio the
    run was given: no millisecond is left out, none is sent twice, and there
    are [chunks_number] requests. *)
Theorem requests_carry_the_audio fuel level audio language pc tc w r w' log
    (Hfit : chunks_fit env audio)
    (Hrun : transcribe_large_audio_baidu env patience fuel level audio
              language pc tc w = Returned r w' log) :
  (exists k, k <= chunks_number audio
             /\ requests log = map (chunk audio) (seq 0 k))
  /\ (In (Completed level) log ->
      requests log = map (chunk audio) (seq 0 (chunks_number audio))
      /\ concat (requests log) = audio
      /\ length (requests log) = chunks_number audio).
Proof.
  assert (Hall : Forall (fun i => (wav_size env (chunk audio i) <= size_limit)%N)
                        (seq 0 (chunks_number audio))).
  { apply Forall_forall. intros i Hi. apply Hfit. apply in_seq in Hi. lia. }
  assert (Hprefix : forall res log',
    loop_run (baidu_run env (S level) language) baidu_raise level audio pc
             (chunks_number audio) (seq 0 (chunks_number audio)) [] res log' ->
    exists k, k <= chunks_number audio
              /\ requests log' = map (chunk audio) (seq 0 k)).
  { intros res log' H.
    destruct (loop_run_requests sample env keys _ _ _ _ _ _ _ _ _ H Hall)
      as [(k & Hk & Hreq) _].
    rewrite length_seq in Hk. exists k. split; [exact Hk|].
    rewrite Hreq, firstn_seq. now rewrite Nat.min_l. }
  apply returned_large_run in Hrun.
  destruct Hrun as [e|e log' Hloop|r' log' Hloop|ts log' Hloop].
  - split; [exists 0; split; [lia|reflexivity]|].
    intros [Hin|[]]. discriminate.
  - pose proof (loop_run_not_completed sample _ _ level audio pc
                  (baidu_run_sub sample env level language)
                  (baidu_raise_sub sample) _ _ _ _ _ Hloop) as Hnot.
    rewrite requests_app. simpl. rewrite app_nil_r.
    split; [exact (Hprefix _ _ Hloop)|].
    intros Hin. apply in_app_or in Hin as [Hin|[Hin|[]]];
      [contradiction|discriminate].
  - pose proof (loop_run_not_completed sample _ _ level audio pc
                  (baidu_run_sub sample env level language)
                  (baidu_raise_sub sample) _ _ _ _ _ Hloop) as Hnot.
    split; [exact (Hprefix _ _ Hloop)|]. intros Hin. contradiction.
  - destruct (loop_run_requests sample env keys _ _ _ _ _ _ _ _ _ Hloop Hall)
      as [_ Hreq].
    specialize (Hreq ts eq_refl).
    assert (Hlog : requests
                     (log' ++ (if pc
                               then [Progress (sample:=sample)
                                       (chunks_number audio) (chunks_number audio)]
                               else []) ++ [Completed level])
                   = map (chunk audio) (seq 0 (chunks_number audio))).
    { rewrite requests_app, Hreq. destruct pc; simpl; now rewrite app_nil_r. }
    rewrite Hlog.
    split; [exists (chunks_number audio); split; [lia|reflexivity]|].
    intros _. split; [reflexivity|]. split; [apply chunks_cover|].
    now rewrite length_map, length_seq.
Qed.

End Sent.

(** ** The language of a transcription *)

Section Language.

Lemma split_not_nil sep s : split sep s <> [].
Proof.
  destruct s as [|c s]; simpl; [discriminate|].
  destruct (Ascii.eqb c sep); [discriminate|].
  destruct (split sep s); discriminate.
Qed.

Lemma split_cons_other sep c s :
  Ascii.eqb c sep = false ->
  split sep (String c s)
  = String c (hd EmptyString (split sep s)) :: tl (split sep s).
Proof.
  intros H. simpl. rewrite H.
  pose proof (split_not_nil sep s) as Hs.
  destruct (split sep s); [contradiction|reflexivity].
Qed.

Lemma split_without sep s : contains sep s = false -> split sep s = [s].
Proof.
  induction s as [|c s IH]; [reflexivity|]. simpl. intros H.
  apply orb_false_iff in H as [Hc Hs]. rewrite Hc, (IH Hs). reflexivity.
Qed.

(** A text without the separator, the separator and the rest: the first
    part is the text. *)
Lemma split_app sep s t :
  contains sep s = false ->
  split sep (s ++ String sep t) = s :: split sep t.
Proof.
  induction s as [|c s IH]; simpl; intros H.
  - now rewrite Ascii.eqb_refl.
  - apply orb_false_iff in H as [Hc Hs]. rewrite Hc, (IH Hs). reflexivity.
Qed.

(** Before its first separator a text starts as the whole text does, for
    a start that has no separator. *)
Lemma prefix_first_part sep : forall p s,
  contains sep p = false ->
  String.prefix p (hd EmptyString (split sep s)) = String.prefix p s.
Proof.
  intros p s. revert p.
  induction s as [|c s IH]; intros p Hp; [reflexivity|].
  destruct (Ascii.eqb c sep) eqn:Hc.
  - apply Ascii.eqb_eq in Hc. subst c. simpl. rewrite Ascii.eqb_refl. simpl.
    destruct p as [|a p]; [reflexivity|]. simpl in *.
    apply orb_false_iff in Hp as [Ha _].
    destruct (ascii_dec a sep) as [E|_]; [|reflexivity].
    rewrite E, Ascii.eqb_refl in Ha. discriminate.
  - rewrite (split_cons_other _ _ _ Hc). simpl.
    destruct p as [|a p]; [reflexivity|]. simpl in Hp.
    apply orb_false_iff in Hp as [_ Hp].
    destruct (ascii_dec a c); [now apply IH|reflexivity].
Qed.

Lemma prefix_head a p s :
  String.prefix (String a p) s = true -> exists s', s = String a s'.
Proof.
  destruct s as [|b s]; simpl; [discriminate|].
  destruct (ascii_dec a b) as [->|_]; [|discriminate].
  intros _. now exists s.
Qed.

Lemma prefix_baidu_language p language :
  contains "-" p = false ->
  String.prefix p (baidu_language language) = String.prefix p language.
Proof.
  intros Hp. unfold baidu_language.
  destruct (contains "-" language); [now apply prefix_first_part|reflexivity].
Qed.

Lemma dev_pid_of_baidu_language language :
  dev_pid_of (baidu_language language) = dev_pid_of language.
Proof.
  unfold dev_pid_of. now rewrite !prefix_baidu_language.
Qed.

Lemma baidu_language_without language :
  contains "-" (baidu_language language) = false.
Proof.
  unfold baidu_language. destruct (contains "-" language) eqn:H; [|exact H].
  clear H. induction language as [|c s IH]; [reflexivity|].
  destruct (Ascii.eqb c "-") eqn:Hc.
  - simpl. now rewrite Hc.
  - rewrite (split_cons_other _ _ _ Hc). simpl. now rewrite Hc, IH.
Qed.

Variable sample : Type.
Variable env : Env sample.
Variable patience : nat.

Local Abbreviation M := (M sample).

Lemma bind_ext {A B} (m m' : M A) (k k' : A -> M B) w :
  m w = m' w -> (forall a w1, k a w1 = k' a w1) ->
  bind m k w = bind m' k' w.
Proof.
  intros Hm Hk. unfold bind. rewrite Hm.
  destruct (m' w) as [a w1 log1|e w1 log1|]; [|reflexivity|reflexivity].
  now rewrite Hk.
Qed.

Section Loop.

Variables transcribe transcribe' : AudioSegment sample -> string -> bool -> bool -> M string.
Variables (level : nat) (audio : AudioSegment sample).
Variables (language language' : string) (pc tc : bool).

Hypothesis same : forall a w,
  transcribe a language pc tc w = transcribe' a language' pc tc w.

Lemma chunk_loop_ext total todo : forall ts w,
  chunk_loop env patience transcribe level audio language pc tc total todo ts w
  = chunk_loop env patience transcribe' level audio language' pc tc total todo ts w.
Proof.
  induction todo as [|i rest IH]; intros ts w; [reflexivity|].
  rewrite !loop_cons.
  apply bind_ext; [reflexivity|intros [|] w1; [reflexivity|]].
  apply bind_ext; [reflexivity|intros _ w2].
  apply bind_ext; [reflexivity|intros _ w3].
  apply bind_ext; [reflexivity|intros _ w4].
  apply bind_ext; [reflexivity|intros _ w5].
  apply bind_ext; [apply same|intros chunk_result w6].
  destruct (chunk_result =? stopped_msg)%string; [reflexivity|].
  destruct (negb _); (apply bind_ext; [reflexivity|intros _ w7; apply IH]).
Qed.

Lemma large_body_ext w :
  large_body env patience transcribe level audio language pc tc w
  = large_body env patience transcribe' level audio language' pc tc w.
Proof.
  unfold large_body, try_except.
  match goal with
  | |- match ?m w with _ => _ end = match ?m' w with _ => _ end =>
      assert (H : m w = m' w)
  end.
  { apply bind_ext; [reflexivity|intros ? w1].
    apply bind_ext; [apply chunk_loop_ext|reflexivity]. }
  rewrite H. reflexivity.
Qed.

End Loop.

(** The language of a call reaches the service as [dev_pid] only. *)
Lemma same_dev_pid fuel language language' :
  dev_pid_of language' = dev_pid_of language ->
  forall level a pc tc w,
    transcribe_audio_baidu env patience fuel level a language' pc tc w
    = transcribe_audio_baidu env patience fuel level a language pc tc w.
Proof.
  intros Hpid.
  induction fuel as [|fuel IH]; intros level a pc tc w;
    rewrite !transcribe_audio_baidu_unfold; unfold baidu_body;
    (destruct (keys_missing env); [reflexivity|]);
    (apply bind_ext; [reflexivity|intros _ w1]);
    (destruct (size_limit <? wav_size env a)%N;
     [|unfold single_request; now rewrite Hpid]).
  - reflexivity.
  - apply large_body_ext. intros a' w'. apply IH.
Qed.

(** X8: the language of a transcription.  [transcribe_audio] cuts the code
    at its first "-" before it calls [transcribe_audio_baidu]; what it
    passes has no "-" and starts with "zh", "en", "ja" or "ko" exactly when
    the code does, so that the same [dev_pid] is chosen and the run is the
    one [transcribe_audio_baidu] makes on the code itself.  A run depends
    on the language through [dev_pid] only: two codes with the same
    [dev_pid] give the same run, in particular "ja...", "ko..." and "en..."
    all give the run of 1737, and a code that starts with none of the four
    gives the run with no [dev_pid] in the options. *)
Theorem language_reaches_service_as_dev_pid google fuel audio language pc tc w :
  contains "-" (baidu_language language) = false
  /\ dev_pid_of (baidu_language language) = dev_pid_of language
  /\ transcribe_audio env patience google fuel audio language true pc tc w
     = transcribe_audio_baidu env patience fuel 0 audio language pc tc w
  /\ (forall language' level,
        dev_pid_of language' = dev_pid_of language ->
        transcribe_audio_baidu env patience fuel level audio language' pc tc w
        = transcribe_audio_baidu env patience fuel level audio language pc tc w)
  /\ (String.prefix "ja" language = true \/ String.prefix "ko" language = true ->
      dev_pid_of language = dev_pid_of "en")
  /\ (dev_pid_of language = None <->
      String.prefix "zh" language = false /\ String.prefix "en" language = false
      /\ String.prefix "ja" language = false /\ String.prefix "ko" language = false).
Proof.
  split; [apply baidu_language_without|].
  split; [apply dev_pid_of_baidu_language|].
  split; [apply same_dev_pid, dev_pid_of_baidu_language|].
  split; [intros language' level H; now apply same_dev_pid|].
  split.
  - intros H.
    assert (Hzh : String.prefix "zh" language = false).
    { destruct H as [H|H]; apply prefix_head in H as [s ->]; reflexivity. }
    change (dev_pid_of "en") with (Some 1737%Z).
    unfold dev_pid_of. rewrite Hzh.
    destruct (String.prefix "en" language); [reflexivity|].
    destruct H as [->|H]; [reflexivity|].
    destruct (String.prefix "ja" language); [reflexivity|now rewrite H].
  - unfold dev_pid_of.
    destruct (String.prefix "zh" language), (String.prefix "en" language),
      (String.prefix "ja" language), (String.prefix "ko" language);
      split; try discriminate; try tauto;
      intros (? & ? & ? & ?); discriminate.
Qed.

End Language.

(** ** The language code of a selection in the windows *)

Section Selection.

Local Open Scope string_scope.

Lemma contains_app sep s t :
  contains sep (s ++ t) = contains sep s || contains sep t.
Proof.
  induction s as [|c s IH]; [reflexivity|]. simpl.
  now rewrite IH, orb_assoc.
Qed.

Lemma append_cons s c t : s ++ String c t = (s ++ String c "") ++ t.
Proof. induction s as [|a s IH]; [reflexivity|]. simpl. now rewrite IH. Qed.

(** X9: the language code of a selection.  For an item made as the Tk
    window makes them, of a name without "(" and a code without "(" and
    ")", what both windows read back from the item is the code.  A selection
    without "(" (the box of the Tk window can be edited) gives no code: the
    index 1 raises.  The two windows offer the same items, and the codes read
    back from them are those of the table; through [transcribe_audio] they
    reach the service as 1537 for Chinese, 1737 for English, Japanese and
    Korean, and without [dev_pid] for French, German and Russian. *)
Theorem selection_gives_code :
  (forall name code,
      contains "(" name = false ->
      contains "(" code = false -> contains ")" code = false ->
      Gui.language_code (Gui.combo_value name code) = Some code)
  /\ (forall selection,
        contains "(" selection = false -> Gui.language_code selection = None)
  /\ Gui.qt_languages = Gui.combo_values
  /\ map Gui.language_code Gui.combo_values
     = map (fun entry => Some (snd entry)) Gui.languages
  /\ map (fun entry => dev_pid_of (baidu_language (snd entry))) Gui.languages
     = [Some 1537%Z; Some 1737%Z; Some 1737%Z; Some 1737%Z; None; None; None].
Proof.
  split.
  { intros name code Hname Hcode Hcode'.
    unfold Gui.language_code, Gui.combo_value.
    change (name ++ " (" ++ code ++ ")")
      with (name ++ String " " (String "(" (code ++ ")"))).
    rewrite (append_cons name " "),
      (split_app "(" (name ++ " ") (code ++ ")"))
      by (rewrite contains_app, Hname; reflexivity).
    rewrite split_without by (rewrite contains_app, Hcode; reflexivity).
    cbn [nth_error].
    rewrite (split_app ")" code "") by exact Hcode'. reflexivity. }
  split.
  { intros selection H. unfold Gui.language_code.
    now rewrite split_without. }
  repeat split.
Qed.

End Selection.

(** ** The hypotheses of the properties above, met by runs *)

Section FurtherRuns.

Local Open Scope string_scope.

Lemma quiet_undisturbed (env : Env unit) patience w :
  0 < patience ->
  (forall t, ui env t = []) -> (forall t, io_error env t = None) ->
  controller w = __init__ ->
  undisturbed env patience w.
Proof.
  intros Hp Hq Hio Hw.
  assert (Hc : forall k, peek env (ticks env k w) = __init__).
  { intros k. rewrite peek_quiet by apply Hq.
    now rewrite controller_ticks_quiet. }
  split.
  - intros k. now rewrite Hc.
  - intros k. exists 0. split; [exact Hp|]. now rewrite Hc.
  - intros k. apply Hio.
Qed.

Lemma silent_run :
  transcribe_large_audio_baidu calm 1 1 0 (audio_of 1000) "zh" false false start
  = Returned "hello" {| controller := __init__; now := 4 |}
      [Processing 0 0 1; Exported 0 0 (audio_of 1000);
       Request (audio_of 1000) (Some 1537%Z); ChunkOk 0 0 "hello"; Completed 0].
Proof. vm_compute. reflexivity. Qed.

Lemma oversized_audio_is_never_sent_witness :
  (size_limit < wav_size cd_quality (chunk (audio_of 61000) 0))%N
  /\ match transcribe_large_audio_baidu cd_quality 1 1 0 (audio_of 61000) "zh"
             false false start with
     | Returned r w' log => ~ In (chunk (audio_of 61000) 0) (requests log)
     | _ => False
     end.
Proof.
  assert (Hbig : (size_limit < wav_size cd_quality (chunk (audio_of 61000) 0))%N)
    by (vm_compute; reflexivity).
  split; [exact Hbig|].
  destruct (transcribe_large_audio_baidu cd_quality 1 1 0 (audio_of 61000) "zh"
              false false start) as [r w' log|e w' log|] eqn:Hrun.
  - exact (proj2 (oversized_audio_is_never_sent unit cd_quality 1 1 0
                    (audio_of 61000) "zh" false false start r w' log
                    (or_introl Hrun))
                 (chunk (audio_of 61000) 0) Hbig).
  - apply (f_equal (fun o => match o with Returned _ _ _ => true | _ => false end))
      in Hrun.
    vm_compute in Hrun. discriminate.
  - apply (f_equal (fun o => match o with Returned _ _ _ => true | _ => false end))
      in Hrun.
    vm_compute in Hrun. discriminate.
Defined.

Lemma chunked_run_aborts_as_text_witness :
  transcribe_large_audio_baidu (stereo_failing_at 0) 1 1 0 (audio_of 1000) "zh"
    true true start
  = Returned (large_error_msg "No space left on device")
      (tick (stereo_failing_at 0) start) [Aborted 0 "No space left on device"].
Proof.
  apply (proj1 (proj2
           (chunked_run_aborts_as_text unit (stereo_failing_at 0) 1 1 0
              (audio_of 1000) "zh" true true start))).
  reflexivity.
Defined.

Lemma kept_and_dropped_witness :
  "hello" = join (appended_at 0 one_chunk_log).
Proof.
  apply (proj1 (proj2 (proj2
           (kept_and_dropped unit calm 1 0 0 (audio_of 1000) "zh" true true
              start _ _ _ calm_run)))).
  unfold one_chunk_log. simpl. tauto.
Defined.

Lemma missing_keys_send_nothing_witness :
  keys_missing (no_keys stereo44k) = true
  /\ transcribe_audio_baidu (no_keys stereo44k) 1 1 0 (audio_of 61000) "zh"
       true true start
     = Returned missing_keys_msg start [].
Proof.
  split; [reflexivity|].
  apply (proj1 (missing_keys_send_nothing unit (no_keys stereo44k) 1 eq_refl
                  1 0 (audio_of 61000) "zh" true true start)).
Defined.

Lemma absent_controller_and_callback_witness :
  uninterrupted
    [Processing 0 0 1; Exported 0 0 (audio_of 1000);
     Request (audio_of 1000) (Some 1537%Z); ChunkOk 0 0 "hello"; Completed 0]
  /\ progress_calls
       [Processing 0 0 1; Exported 0 0 (audio_of 1000);
        Request (audio_of 1000) (Some 1537%Z); ChunkOk 0 0 "hello"; Completed 0]
     = [].
Proof.
  destruct (proj2 (absent_controller_and_callback unit calm 1 1 0
                     (audio_of 1000) "zh" false false start) _ _ _ silent_run)
    as [H1 H2].
  split; [apply H1|apply H2]; reflexivity.
Defined.

Lemma run_leaves_controller_to_its_callers_witness :
  controller {| controller := __init__; now := 7 |} = controller start.
Proof.
  pose proof (run_leaves_controller_to_its_callers unit calm 1 0 0
                (audio_of 1000) "zh" true true start) as H.
  cbv zeta in H. destruct H as [H _]. rewrite calm_run in H. destruct H as (n & _ & _ & _ & H).
  apply H. reflexivity.
Defined.

Lemma requests_carry_the_audio_witness :
  keys_missing calm = false /\ chunks_fit calm (audio_of 1000)
  /\ concat (requests one_chunk_log) = audio_of 1000.
Proof.
  split; [reflexivity|]. split; [apply calm_fits|].
  destruct (proj2 (requests_carry_the_audio unit calm 1 eq_refl 0 0
                     (audio_of 1000) "zh" true true start _ _ _
                     (calm_fits _) calm_run)) as (_ & H & _);
    [unfold one_chunk_log; simpl; tauto|exact H].
Defined.

Lemma language_reaches_service_as_dev_pid_witness :
  dev_pid_of "zh-TW" = dev_pid_of "zh-CN"
  /\ transcribe_audio_baidu calm 1 1 0 (audio_of 1000) "zh-TW" true true start
     = transcribe_audio_baidu calm 1 1 0 (audio_of 1000) "zh-CN" true true start.
Proof.
  split; [reflexivity|].
  apply (proj1 (proj2 (proj2 (proj2
           (language_reaches_service_as_dev_pid unit calm 1
              (fun _ _ => pending) 1 (audio_of 1000) "zh-CN" true true start))))
           "zh-TW" 0).
  reflexivity.
Defined.

Lemma selection_gives_code_witness :
  Gui.language_code (Gui.combo_value "中文" "zh-CN") = Some "zh-CN".
Proof. apply (proj1 selection_gives_code); reflexivity. Defined.

End FurtherRuns.
